(** * SiPixelDynamicInefficiency payload inspector: decoding and matching core

    A shallow embedding of the pure helpers of
    [CondCore/SiPixelPlugins/plugins/SiPixelDynamicInefficiency_PayloadInspector.cc]
    (namespace [SiPixDynIneff] and the private helpers of the PU map class),
    with the properties the design document states about them.

    Conventions.
    - A [uint32_t] (a raw detector identifier, a mask) is a [Z] in
      [0, 2^32); [&], [|], [<<], [>>] are [Z.land], [Z.lor], [Z.shiftl],
      [Z.shiftr], and the 32-bit complement [~] is [lnot32].
    - A [double] is a binary64 [float]; a C++ [float] is the binary64 value
      obtained by rounding to binary32 ([double_to_float]).
    - A [std::map<unsigned int, T>] is read only through its iteration, so
      it is represented by its entry sequence in iteration (ascending key)
      order, a [list (Z * T)]; [map_wf] says that a list is such a sequence.
    - The [std::unordered_map] built by [pbrf] is a [gmap]. *)

From Stdlib Require Import ZArith Lia List Bool Floats Uint63 String.
From stdpp Require Import base option list gmap.

Local Open Scope Z_scope.

(** ** Machine integers *)

Definition UINT32_MAX : Z := Z.ones 32.
Definition INT_MAX : Z := 2147483647.
Definition INT_MIN : Z := -2147483648.

Definition is_uint32 (x : Z) : Prop := 0 <= x < 2 ^ 32.

(** [~x] on a [uint32_t]. *)
Definition lnot32 (x : Z) : Z := Z.land (Z.lnot x) UINT32_MAX.

(** ** Floating point *)

(** The implicit conversion from [double] to [float]: round to nearest
    even in binary32 (24 bits of precision, exponents below 128). *)
Definition double_to_float (d : float) : float :=
  match Prim2SF d with
  | S754_finite s m e => SF2Prim (binary_round 24 128 s m e)
  | _ => d
  end.

(** ** The [DetId] interface

    [DetId] is declared in [DataFormats/DetId/interface/DetId.h], outside
    the plugin.  The helpers touch it through three operations only, which
    are kept abstract here; a raw identifier stands for the [DetId] built
    from it, so [DetId(raw).rawId()] is [raw]. *)

Class DetIdInterface : Type := {
  det : Z -> Z;         (* DetId(raw).det(), as the enumerator's value *)
  subdetId : Z -> Z;    (* DetId(raw).subdetId() *)
  DetId2 : Z -> Z -> Z  (* DetId(det, subdet).rawId() *)
}.

(** [PixelSubdetector::SubDetector], from
    [DataFormats/SiPixelDetId/interface/PixelSubdetector.h]. *)
Definition PixelBarrel : Z := 1.
Definition PixelEndcap : Z := 2.

(** ** Data model of the plugin *)

(** [using FactorMap = std::map<unsigned int, double>] and
    [using PUFactorMap = std::map<unsigned int, std::vector<double> >],
    as iteration sequences. *)
Definition FactorMap : Type := list (Z * float).
Definition PUFactorMap : Type := list (Z * list float).

(** Strictly ascending keys: the iteration order of a [std::map]. *)
Fixpoint ascending (ks : list Z) : bool :=
  match ks with
  | k1 :: ((k2 :: _) as rest) => (k1 <? k2) && ascending rest
  | _ => true
  end.

Definition map_wf {T : Type} (m : list (Z * T)) : bool :=
  forallb (fun k => (0 <=? k) && (k <? 2 ^ 32)) (map fst m) && ascending (map fst m).

(** [enum shiftEnumerator { FPixRocIdShift = 3, BPixRocIdShift = 6 }] and
    [const int rocIdMaskBits = 0x1F]. *)
Definition FPixRocIdShift : Z := 3.
Definition BPixRocIdShift : Z := 6.
Definition rocIdMaskBits : Z := 0x1F.

(** [struct packedBadRocFraction]. *)
Record packedBadRocFraction : Type := {
  badRocNumber : list Z;     (* std::vector<int> *)
  badRocFrac : list float    (* std::vector<float> *)
}.

Definition emptyFraction : packedBadRocFraction :=
  {| badRocNumber := []; badRocFrac := [] |}.

Section Decoding.
Context {D : DetIdInterface}.

(** *** [pbrf]: the decoding at the head of the loop body *)

(** [shift]: chosen by the subdetector of the key. *)
Definition rocShift (id : Z) : Z :=
  let subid := subdetId id in
  if subid =? PixelBarrel then BPixRocIdShift else FPixRocIdShift.

(** [(rawid, rocId)] for a given shift: [rocMask = rocIdMaskBits << shift],
    [rocId = (id & rocMask) >> shift], [rawid = id & ~rocMask]. *)
Definition unpackRoc (shift id : Z) : Z * Z :=
  let rocMask := Z.shiftl rocIdMaskBits shift in
  let rocId := Z.shiftr (Z.land id rocMask) shift in
  let rawid := Z.land id (lnot32 rocMask) in
  (rawid, rocId).

Definition decodeKey (id : Z) : Z * Z := unpackRoc (rocShift id) id.

(** The inverse packing: [rawid | (rocId << shift)]. *)
Definition packRoc (shift : Z) (p : Z * Z) : Z :=
  Z.lor (fst p) (Z.shiftl (snd p) shift).

(** One iteration of the [for] loop of [pbrf] over the accumulator [f]. *)
Definition pbrf_step (f : gmap Z packedBadRocFraction) (db_factor : Z * float)
  : gmap Z packedBadRocFraction :=
  let '(rawid, rocId) := decodeKey (fst db_factor) in
  let f :=
    match f !! rawid with
    | None => <[rawid := emptyFraction]> f
    | Some _ => f
    end in
  if negb (rocId =? 0) then
    let rocId := rocId - 1 in
    let factor := snd db_factor in
    let badFraction := (1 - factor)%float in
    alter (fun p => {| badRocNumber := badRocNumber p ++ [rocId];
                       badRocFrac := badRocFrac p ++ [double_to_float badFraction] |})
          rawid f
  else f.

Definition pbrf (PixelGeomFactorsDBIn : FactorMap) : gmap Z packedBadRocFraction :=
  fold_left pbrf_step PixelGeomFactorsDBIn ∅.

End Decoding.

(** ** Matching a module against the stored entries *)

Section Matching.
Context {D : DetIdInterface}.

(** The disqualifying test of the inner loop, for a mask whose
    subdetector is that of the stored identifier:
    [(detid & mask) != (mapid & mask) &&
     (mapid & mask) != DetId(mapid.det(), mapid.subdetId()).rawId()]. *)
Definition disqualifies (detid mapid mask : Z) : bool :=
  negb (Z.land detid mask =? Z.land mapid mask)
  && negb (Z.land mapid mask =? DetId2 (det mapid) (subdetId mapid)).

(** The inner [for (; __i < detIdmasks.size(); __i++)] loop: [rest] are
    the masks from position [i] on, the result is the value of [__i]
    when the loop is left (by [break], or at the end). *)
Fixpoint mask_loop (detid mapid : Z) (rest : list Z) (i : nat) : nat :=
  match rest with
  | [] => i
  | maskid :: rest' =>
      if negb (subdetId maskid =? subdetId mapid)
      then mask_loop detid mapid rest' (S i)          (* continue *)
      else if disqualifies detid mapid maskid
           then i                                     (* break *)
           else mask_loop detid mapid rest' (S i)
  end.

(** An entry takes part in the result when neither [continue] of the
    outer loop body is taken. *)
Definition entry_matches (detid mapid : Z) (detIdmasks : list Z) : bool :=
  (subdetId mapid =? subdetId detid)
  && (mask_loop detid mapid detIdmasks 0 =? length detIdmasks)%nat.

(** Body of the outer loop of [getMatchingGeomFactor]. *)
Definition geom_step (detid : Z) (detIdmasks : list Z)
    (geomfactor_db : float) (map_element : Z * float) : float :=
  let mapid := fst map_element in
  if negb (subdetId mapid =? subdetId detid) then geomfactor_db
  else
    let i := mask_loop detid mapid detIdmasks 0 in
    if negb (i =? length detIdmasks)%nat then geomfactor_db
    else (geomfactor_db * snd map_element)%float.

Definition getMatchingGeomFactor (detid : Z) (map_geomfactor : FactorMap)
    (detIdmasks : list Z) : float :=
  fold_left (geom_step detid detIdmasks) map_geomfactor 1%float.

(** Body of the outer loop of [getMatchingPUFactors]. *)
Definition pu_step (detid : Z) (detIdmasks : list Z)
    (pufactors_db : list float) (map_element : Z * list float) : list float :=
  let mapid := fst map_element in
  if negb (subdetId mapid =? subdetId detid) then pufactors_db
  else
    let i := mask_loop detid mapid detIdmasks 0 in
    if negb (i =? length detIdmasks)%nat then pufactors_db
    else snd map_element.

Definition getMatchingPUFactors (detid : Z) (map_pufactory : PUFactorMap)
    (detIdmasks : list Z) : list float :=
  fold_left (pu_step detid detIdmasks) map_pufactory [].

(** The predicate in the words of the design document, whose wildcard
    pattern is the subsystem-only identifier masked by [m]. *)
Definition spec_matchPredicate (targetId storedId : Z) (masks : list Z) : Prop :=
  subdetId targetId = subdetId storedId
  /\ forall m, In m masks -> subdetId m = subdetId storedId ->
       Z.land targetId m = Z.land storedId m
       \/ Z.land storedId m = Z.land (DetId2 (det storedId) (subdetId storedId)) m.

(** The predicate the code computes: the wildcard pattern is the
    subsystem-only identifier itself. *)
Definition code_matchPredicate (targetId storedId : Z) (masks : list Z) : Prop :=
  subdetId targetId = subdetId storedId
  /\ forall m, In m masks -> subdetId m = subdetId storedId ->
       Z.land targetId m = Z.land storedId m
       \/ Z.land storedId m = DetId2 (det storedId) (subdetId storedId).

End Matching.

(** ** Validation of the masks against a tracker topology *)

(** [SiPixelPI::phase]. *)
Inductive phase : Type := zero | one | two.

(** What [checkPhase] uses of a [TrackerTopology]: the raw identifiers
    of [pxbDetId(layer, ladder, module)] and
    [pxfDetId(side, disk, blade, panel, module)]. *)
Record TrackerTopology : Type := {
  pxbDetId : Z -> Z -> Z -> Z;
  pxfDetId : Z -> Z -> Z -> Z -> Z -> Z
}.

Definition inputFile (p : phase) : string :=
  match p with
  | zero => "Geometry/TrackerCommonData/data/trackerParameters.xml"
  | one => "Geometry/TrackerCommonData/data/PhaseI/trackerParameters.xml"
  | two => "Geometry/TrackerCommonData/data/PhaseII/trackerParameters.xml"
  end.

(** [std::equal(first1, last1, first2)]; the caller guards it by the
    equality of the sizes, so the second range never ends first. *)
Fixpoint std_equal (r1 r2 : list Z) : bool :=
  match r1, r2 with
  | [], _ => true
  | x :: r1', y :: r2' => (x =? y) && std_equal r1' r2'
  | _ :: _, [] => false
  end.

Section PhaseCheck.
(** [StandaloneTrackerTopology::fromTrackerParametersXMLFile] composed
    with the resolution of the file name: the topology read from a
    parameter file. *)
Variable fromTrackerParametersXMLFile : string -> TrackerTopology.

(** The masks [checkPhase] derives from the geometry. *)
Definition masks_geom (p : phase) : list Z :=
  let tkTopo := fromTrackerParametersXMLFile (inputFile p) in
  let max := UINT32_MAX in
  [ pxbDetId tkTopo max 0 0;
    pxbDetId tkTopo 0 max 0;
    pxbDetId tkTopo 0 0 max;
    pxfDetId tkTopo max 0 0 0 0;
    pxfDetId tkTopo 0 max 0 0 0;
    pxfDetId tkTopo 0 0 max 0 0;
    pxfDetId tkTopo 0 0 0 max 0;
    pxfDetId tkTopo 0 0 0 0 max ].

Definition checkPhase (p : phase) (masks_db : list Z) : bool :=
  (length (masks_geom p) =? length masks_db)%nat
  && std_equal (masks_geom p) masks_db.

End PhaseCheck.

(** ** Page layout *)

(** How a call can end: a value, a C++ exception, or an operation the
    language leaves undefined. *)
Inductive undefined : Type :=
| signed_overflow        (* an int result out of range *)
| float_to_int_range     (* conversion of a NaN or out-of-range double to int *)
| division_by_zero.      (* x % 0 *)

Inductive outcome (A : Type) : Type :=
| Returns (a : A)
| Throws (what : string)
| Undefined (u : undefined).

Arguments Returns {A} a.
Arguments Throws {A} what.
Arguments Undefined {A} u.

(** Sequencing: a call that does not return ends the whole computation. *)
Definition bind {A B : Type} (o : outcome A) (k : A -> outcome B) : outcome B :=
  match o with
  | Returns a => k a
  | Throws what => Throws what
  | Undefined u => Undefined u
  end.

Notation "'let*' x ':=' o 'in' k" := (bind o (fun x => k))
  (at level 10, x name, o at level 100, k at level 200).

(** [a + b] on [int]: undefined when the sum leaves the range. *)
Definition int_add (a b : Z) : outcome Z :=
  if (INT_MIN <=? a + b) && (a + b <=? INT_MAX)
  then Returns (a + b)
  else Undefined signed_overflow.

(** [while (input % testNum != 0) testNum--;].  [testNum] starts at a
    truncated square root, so it is never negative and is carried as a
    natural number; the recursion follows the decrement.  [%] truncates
    ([Z.rem]). *)
Fixpoint closest_loop (input : Z) (testNum : nat) : outcome Z :=
  match testNum with
  | O => Undefined division_by_zero
  | S testNum' =>
      if negb (Z.rem input (Z.of_nat testNum) =? 0)
      then closest_loop input testNum'
      else Returns (Z.of_nat testNum)
  end.

(** The double square root of a non-negative [int], on primitive
    integers, and the test that it brackets [k]: the root of [k * k] is
    at least [k] and the root of [(k + 1) * (k + 1) - 1] (of [INT_MAX]
    for the last [k], 46340) is below [k + 1]. *)
Definition sqrt_double (n : int) : float := PrimFloat.sqrt (PrimFloat.of_uint63 n).

Definition root_in_unit (k : int) : bool :=
  let lo := (k * k)%uint63 in
  let hi := (if (k =? 46340)%uint63 then 2147483647 else k * k + 2 * k)%uint63 in
  PrimFloat.leb (PrimFloat.of_uint63 k) (sqrt_double lo)
  && PrimFloat.ltb (sqrt_double hi) (PrimFloat.of_uint63 (k + 1)%uint63).

Fixpoint roots_in_unit (count : nat) (k : int) : bool :=
  match count with
  | O => true
  | S count' => root_in_unit k && roots_in_unit count' (k + 1)%uint63
  end.

(** [(int)sqrt(input)]: the [int] converts exactly to a [double], the
    square root of a negative number is a NaN, whose conversion to [int]
    is undefined; for [0 <= input < 2^31] the correctly rounded root
    truncates to the integer square root (the root is monotone, and
    [sqrt_double_brackets] checks it at the ends of every interval
    [k * k .. (k + 1) * (k + 1) - 1]). *)
Definition int_sqrt (input : Z) : outcome Z :=
  if input <? 0 then Undefined float_to_int_range else Returns (Z.sqrt input).

Definition getClosestFactors (input : Z) : outcome (Z * Z) :=
  let* input := (if negb (Z.rem input 2 =? 0) && (1 <? input)
                 then int_add input 1
                 else Returns input) in
  let* testNum := int_sqrt input in
  let* testNum := closest_loop input (Z.to_nat testNum) in
  Returns (testNum, Z.quot input testNum).

(** The count after the odd/even adjustment. *)
Definition evenCover (n : Z) : Z :=
  if negb (Z.rem n 2 =? 0) && (1 <? n) then n + 1 else n.

(** ** The CMSSW identifier layout, and sample topologies *)

Module CMSSW.

(** Modelled from the spec: [DetId], which the plugin includes from
    [DataFormats/DetId/interface/DetId.h].  The spec only says that the
    subsystem tag is read from fixed high bits; this instance places
    them as the header does: the detector in bits 28-31, the
    subdetector in bits 25-27 (read as 0 for the three HGCal
    detectors).  It supplies the concrete identifiers of the examples;
    the general theorems hold for every [DetIdInterface]. *)
Definition kDetMask : Z := 0xF.
Definition kSubdetMask : Z := 0x7.
Definition kDetOffset : Z := 28.
Definition kSubdetOffset : Z := 25.

Definition Tracker : Z := 1.
Definition HGCalEE : Z := 8.
Definition HGCalHSi : Z := 9.
Definition HGCalHSc : Z := 10.

Definition det_ (id : Z) : Z := Z.land (Z.shiftr id kDetOffset) kDetMask.

Definition subdetId_ (id : Z) : Z :=
  if (HGCalEE =? det_ id) || (HGCalHSi =? det_ id) || (HGCalHSc =? det_ id)
  then 0
  else Z.land (Z.shiftr id kSubdetOffset) kSubdetMask.

Definition DetId2_ (d subdet : Z) : Z :=
  Z.lor (Z.shiftl (Z.land d kDetMask) kDetOffset)
        (Z.shiftl (Z.land subdet kSubdetMask) kSubdetOffset).

#[export] Instance layout : DetIdInterface :=
  {| det := det_; subdetId := subdetId_; DetId2 := DetId2_ |}.

(** Modelled from the spec: the bit fields of a [TrackerTopology]
    ([DataFormats/TrackerCommon/interface/TrackerTopology.h]), one
    start bit and one width mask per hierarchy field, three fields for
    the barrel and five for the endcap. *)
Record PixelBarrelValues : Type := {
  pb_layerStartBit : Z; pb_ladderStartBit : Z; pb_moduleStartBit : Z;
  pb_layerMask : Z; pb_ladderMask : Z; pb_moduleMask : Z
}.

Record PixelEndcapValues : Type := {
  pf_sideStartBit : Z; pf_diskStartBit : Z; pf_bladeStartBit : Z;
  pf_panelStartBit : Z; pf_moduleStartBit : Z;
  pf_sideMask : Z; pf_diskMask : Z; pf_bladeMask : Z;
  pf_panelMask : Z; pf_moduleMask : Z
}.

Definition field (value mask startBit : Z) : Z :=
  Z.land (Z.shiftl (Z.land value mask) startBit) UINT32_MAX.

Definition topology (pb : PixelBarrelValues) (pf : PixelEndcapValues) : TrackerTopology :=
  {| pxbDetId layer ladder module :=
       Z.lor (DetId2_ Tracker PixelBarrel)
         (Z.lor (field layer (pb_layerMask pb) (pb_layerStartBit pb))
            (Z.lor (field ladder (pb_ladderMask pb) (pb_ladderStartBit pb))
                   (field module (pb_moduleMask pb) (pb_moduleStartBit pb))));
     pxfDetId side disk blade panel module :=
       Z.lor (DetId2_ Tracker PixelEndcap)
         (Z.lor (field side (pf_sideMask pf) (pf_sideStartBit pf))
            (Z.lor (field disk (pf_diskMask pf) (pf_diskStartBit pf))
               (Z.lor (field blade (pf_bladeMask pf) (pf_bladeStartBit pf))
                  (Z.lor (field panel (pf_panelMask pf) (pf_panelStartBit pf))
                         (field module (pf_moduleMask pf) (pf_moduleStartBit pf)))))) |}.

(** Two sample parameter sets, laid out as the parameter files of the
    original pixel detector and of its Phase-1 upgrade lay the fields
    out; [sampleTopology] reads the first for the file of phase zero and
    the second for the other two files. *)
Definition barrel0 : PixelBarrelValues :=
  {| pb_layerStartBit := 16; pb_ladderStartBit := 8; pb_moduleStartBit := 2;
     pb_layerMask := 0xF; pb_ladderMask := 0xFF; pb_moduleMask := 0x3F |}.
Definition endcap0 : PixelEndcapValues :=
  {| pf_sideStartBit := 23; pf_diskStartBit := 16; pf_bladeStartBit := 10;
     pf_panelStartBit := 8; pf_moduleStartBit := 2;
     pf_sideMask := 0x3; pf_diskMask := 0xF; pf_bladeMask := 0x3F;
     pf_panelMask := 0x3; pf_moduleMask := 0x3F |}.
Definition barrel1 : PixelBarrelValues :=
  {| pb_layerStartBit := 20; pb_ladderStartBit := 12; pb_moduleStartBit := 2;
     pb_layerMask := 0xF; pb_ladderMask := 0xFF; pb_moduleMask := 0x3FF |}.
Definition endcap1 : PixelEndcapValues :=
  {| pf_sideStartBit := 23; pf_diskStartBit := 18; pf_bladeStartBit := 12;
     pf_panelStartBit := 10; pf_moduleStartBit := 2;
     pf_sideMask := 0x3; pf_diskMask := 0xF; pf_bladeMask := 0x3F;
     pf_panelMask := 0x3; pf_moduleMask := 0xFF |}.

Definition sampleTopology (file : string) : TrackerTopology :=
  if String.eqb file (inputFile zero)
  then topology barrel0 endcap0
  else topology barrel1 endcap1.

(** The eight Phase-1 masks, as [masks_geom sampleTopology one] lists them. *)
Definition masks1 : list Z :=
  [317718528; 303034368; 301993980;
   360710144; 339476480; 335802368; 335547392; 335545340].

(** Identifiers of the examples: the barrel as a whole, its layer 1,
    and a module of layer 1 (ladder 1, module 1). *)
Definition barrelId : Z := 301989888.
Definition layer1Id : Z := 303038464.
Definition moduleA : Z := 303042564.

(** The same module with the raw region index 3 in bits 6-10, a module
    of the forward detector, and a mask of the barrel that leaves the
    detector bits out. *)
Definition moduleA_roc3 : Z := 303042756.
Definition endcapModule : Z := 344200196.
Definition layerMaskNoDet : Z := 49283072.

End CMSSW.

(** The doubles nearest to 0.9, 0.8, 0.72 and 0.5. *)
Definition d0_9 : float := 0x1.ccccccccccccdp-1%float.
Definition d0_8 : float := 0x1.999999999999ap-1%float.
Definition d0_72 : float := 0x1.70a3d70a3d70ap-1%float.
Definition d0_5 : float := 0.5%float.

(** ** Reading the result of [pbrf]

    The module and the raw region index a key decodes to, and the
    entries of a map that carry a region of a given module. *)

Section Regions.
Context {D : DetIdInterface}.

Definition moduleOf (db_factor : Z * float) : Z := fst (decodeKey (fst db_factor)).
Definition rocOf (db_factor : Z * float) : Z := snd (decodeKey (fst db_factor)).

Definition regionsOf (rawid : Z) (m : FactorMap) : FactorMap :=
  List.filter (fun e => (moduleOf e =? rawid) && negb (rocOf e =? 0)) m.

Definition fractionOf (rawid : Z) (m : FactorMap) : packedBadRocFraction :=
  {| badRocNumber := map (fun e => rocOf e - 1) (regionsOf rawid m);
     badRocFrac := map (fun e => double_to_float (1 - snd e)%float) (regionsOf rawid m) |}.

(** The record of a module after one more region entry. *)
Definition appendRegion (e : Z * float) (p : packedBadRocFraction) : packedBadRocFraction :=
  {| badRocNumber := badRocNumber p ++ [rocOf e - 1];
     badRocFrac := badRocFrac p ++ [double_to_float (1 - snd e)%float] |}.

End Regions.

(** ** The callers: legacy check, ROC marking, map filling, PU depth *)

(** The elements of a [BRFractions] in the order its iteration visits
    them.  The order of a [std::unordered_map] is unspecified: the
    functions below take the sequence, and the theorems hold for every
    enumeration of the map. *)
Definition enumerates (elems : list (Z * packedBadRocFraction))
    (fractions : gmap Z packedBadRocFraction) : Prop :=
  Permutation elems (map_to_list fractions).

(** [std::find(p0detIds.begin(), p0detIds.end(), det) != p0detIds.end()]. *)
Fixpoint std_find_found (det : Z) (ids : list Z) : bool :=
  match ids with
  | [] => false
  | id :: ids' => if id =? det then true else std_find_found det ids'
  end.

(** The loop of [isPhase0] over [ownDetIds], with its early return. *)
Fixpoint isPhase0_loop (p0detIds ownDetIds : list Z) : bool :=
  match ownDetIds with
  | [] => false
  | det :: rest =>
      if std_find_found det p0detIds then true
      else isPhase0_loop p0detIds rest
  end.

(** [isPhase0]: [p0detIds] is what the reader of the Phase-0 file
    returns, [fractions] the elements in iteration order. *)
Definition isPhase0 (p0detIds : list Z) (fractions : list (Z * packedBadRocFraction)) : bool :=
  let ownDetIds := map fst fractions in
  isPhase0_loop p0detIds ownDetIds.

(** [SiPixelPI::DetType], the template argument of the ROC map classes. *)
Inductive DetType : Type := t_barrel | t_forward | t_all.

Definition DetType_eqb (a b : DetType) : bool :=
  match a, b with
  | t_barrel, t_barrel | t_forward, t_forward | t_all, t_all => true
  | _, _ => false
  end.

(** One call [theMap.fillSelectedRocs(rawid, rocToMark, value)]; the
    [std::bitset<16>] is given by its value. *)
Record RocCall : Type := {
  call_rawid : Z;
  call_rocs : Z;
  call_value : float
}.

(** How the marking loops end: at their end, by the [std::out_of_range]
    of [std::bitset<16>::set], or by reading [badRocsF] past its end;
    each with the calls made until then. *)
Inductive marking : Type :=
| Marked (calls : list RocCall)
| OutOfRange (calls : list RocCall)
| PastTheEnd (calls : list RocCall).

Definition after (calls : list RocCall) (r : marking) : marking :=
  match r with
  | Marked cs => Marked (calls ++ cs)
  | OutOfRange cs => OutOfRange (calls ++ cs)
  | PastTheEnd cs => PastTheEnd (calls ++ cs)
  end.

(** The values passed on: [badRocsF[i] * 100.f], a [float] product, in
    the single map; [badRocsF[i] * (subtract ? -1. : 1.)], a [double]
    product, in the comparison. *)
Definition percent (frac : float) : float := double_to_float (frac * 100)%float.
Definition signed (subtract : bool) (frac : float) : float :=
  (frac * (if subtract then -1 else 1))%float.

Section Marking.
Context {D : DetIdInterface}.

(** The test that guards [fillSelectedRocs]. *)
Definition selects (myType : DetType) (subid : Z) : bool :=
  (subid =? PixelBarrel) && DetType_eqb myType t_barrel
  || (subid =? PixelEndcap) && DetType_eqb myType t_forward
  || DetType_eqb myType t_all.

(** [for (size_t i = 0; i < badRocs.size(); i++)]: [rest] are the
    entries of [badRocs] from position [i] on.  [rocToMark.set] comes
    before the test of the detector part and throws for a position
    outside the 16 bits (a negative [int] converts to a huge
    [size_t]). *)
Fixpoint markRocs (value : float -> float) (sel : bool) (rawid : Z)
    (badRocsF : list float) (i : nat) (rest : list Z) : marking :=
  match rest with
  | [] => Marked []
  | roc :: rest' =>
      if (0 <=? roc) && (roc <? 16)
      then
        let rocToMark := Z.shiftl 1 roc in
        if sel
        then
          match badRocsF !! i with
          | Some frac =>
              after [{| call_rawid := rawid; call_rocs := rocToMark;
                        call_value := value frac |}]
                    (markRocs value sel rawid badRocsF (S i) rest')
          | None => PastTheEnd []
          end
        else markRocs value sel rawid badRocsF (S i) rest'
      else OutOfRange []
  end.

(** The body of the loop over the elements of the unpacked map. *)
Definition markElement (value : float -> float) (myType : DetType)
    (element : Z * packedBadRocFraction) : marking :=
  let rawid := fst element in
  let subid := subdetId rawid in
  let packedinfo := snd element in
  let badRocs := badRocNumber packedinfo in
  let badRocsF := badRocFrac packedinfo in
  markRocs value (selects myType subid) rawid badRocsF 0 badRocs.

(** [for (const auto& element : fr)], as in the single map class (with
    [percent]) and in [fillTheMapFromPayload] (with [signed subtract]). *)
Fixpoint fillTheMap (value : float -> float) (myType : DetType)
    (fr : list (Z * packedBadRocFraction)) : marking :=
  match fr with
  | [] => Marked []
  | element :: fr' =>
      match markElement value myType element with
      | Marked calls => after calls (fillTheMap value myType fr')
      | stopped => stopped
      end
  end.

End Marking.

(** [enum factor { geom = 0, colgeom = 1, chipgeom = 2, pu = 3, INVALID = 4 }]. *)
Inductive factor : Type := geom | colgeom | chipgeom | pu | INVALID.

(** What the plugin reads of a [SiPixelDynamicInefficiency] payload. *)
Record Payload : Type := {
  getPixelGeomFactors : FactorMap;
  getColGeomFactors : FactorMap;
  getChipGeomFactors : FactorMap;
  getPUFactors : PUFactorMap;
  getDetIdmasks : list Z
}.

Section MapFilling.
Context {D : DetIdInterface}.
Variable fromTrackerParametersXMLFile : string -> TrackerTopology.

(** The [switch (theFactor)] of the full pixel map. *)
Definition selectFactors (theFactor : factor) (payload : Payload) : outcome FactorMap :=
  match theFactor with
  | geom => Returns (getPixelGeomFactors payload)
  | colgeom => Returns (getColGeomFactors payload)
  | chipgeom => Returns (getChipGeomFactors payload)
  | _ => Throws "cms::Exception"
  end.

(** [SiPixelDynamicInefficiencyFullPixelMap::fill], up to the drawing:
    the value it returns and the calls [fullMap.fillTrackerMap(det, value)]
    it makes, for the modules [p1detIds] of the Phase-1 file.  A null
    payload is [None]. *)
Definition fullPixelMap_fill (theFactor : factor) (p1detIds : list Z)
    (payload : option Payload) : outcome (bool * list (Z * float)) :=
  match payload with
  | Some payload =>
      let* theMap := selectFactors theFactor payload in
      let detIdmasks_db := getDetIdmasks payload in
      if negb (checkPhase fromTrackerParametersXMLFile one detIdmasks_db)
      then Returns (false, [])
      else Returns (true, map (fun det => (det, getMatchingGeomFactor det theMap detIdmasks_db))
                              p1detIds)
  | None => Returns (true, [])
  end.

End MapFilling.

(** [maxDepthOfPUArray]: [vec.size()] is a [size_t], compared as such
    and stored into an [unsigned int]. *)
Definition maxDepth_step (size : Z) (entry : Z * list float) : Z :=
  let vec_size := Z.of_nat (length (snd entry)) in
  if size <? vec_size then vec_size mod 2 ^ 32 else size.

Definition maxDepthOfPUArray (map_pufactor : PUFactorMap) : Z :=
  fold_left maxDepth_step map_pufactor 0.

Section PUFilling.
Context {D : DetIdInterface}.

(** The inner loop that fills the PU maps, [int index = 0; for (value :
    values) { maps[index].fillTrackerMap(det, value); index++; }]: the
    calls as triples [(index, det, value)], from the current value of
    [index] on; [index++] is an [int] addition. *)
Fixpoint indexed (index : Z) (det : Z) (values : list float)
  : outcome (list (Z * Z * float)) :=
  match values with
  | [] => Returns []
  | value :: values' =>
      let* index' := int_add index 1 in
      let* calls := indexed index' det values' in
      Returns ((index, det, value) :: calls)
  end.

(** The loop over the modules of the Phase-1 file. *)
Fixpoint puFillCalls (p1detIds : list Z) (theMap : PUFactorMap)
    (detIdmasks_db : list Z) : outcome (list (Z * Z * float)) :=
  match p1detIds with
  | [] => Returns []
  | det :: p1detIds' =>
      let values := getMatchingPUFactors det theMap detIdmasks_db in
      let* calls := indexed 0 det values in
      let* calls' := puFillCalls p1detIds' theMap detIdmasks_db in
      Returns (calls ++ calls')
  end.

End PUFilling.

(** Vectors shorter than a bound. *)
Definition short_vectors (bound : Z) (m : PUFactorMap) : Prop :=
  forall e, In e m -> Z.of_nat (length (snd e)) < bound.

(** A position a [std::bitset<16>] has. *)
Definition inBitset16 (roc : Z) : bool := (0 <=? roc) && (roc <? 16).

(** The calls a record gives rise to when its detector part is drawn. *)
Definition rocCalls (value : float -> float) (rawid : Z)
    (badRocs : list Z) (badRocsF : list float) : list RocCall :=
  map (fun rf => {| call_rawid := rawid; call_rocs := Z.shiftl 1 (fst rf);
                    call_value := value (snd rf) |})
      (combine badRocs badRocsF).

(** ** Sample payloads *)

(** A payload with a module-wide entry and two regions of the same
    module, the raw regions 3 and 20, and a PU map of depth 2. *)
Definition samplePayload : FactorMap :=
  [(CMSSW.moduleA, d0_9); (CMSSW.moduleA_roc3, d0_5); (303043844, d0_5)].
Definition samplePU : PUFactorMap :=
  [(CMSSW.barrelId, [d0_9; d0_8]); (CMSSW.layer1Id, [d0_5])].

(** Conditions whose masks are the three barrel masks only. *)
Definition sampleConditions : Payload :=
  {| getPixelGeomFactors := [(CMSSW.barrelId, d0_9)];
     getColGeomFactors := [];
     getChipGeomFactors := [];
     getPUFactors := samplePU;
     getDetIdmasks := [317718528; 303034368; 301993980] |}.

(** * Properties *)

(** ** Bit-level facts *)

Lemma testbit_uint32_high (x i : Z) :
  is_uint32 x -> 32 <= i -> Z.testbit x i = false.
Proof.
  intros [Hlo Hhi] Hi.
  destruct (Z.eq_dec x 0) as [-> | Hnz]; [apply Z.bits_0 |].
  apply Z.bits_above_log2; [lia |].
  assert (Z.log2 x < 32) by (apply Z.log2_lt_pow2; lia).
  lia.
Qed.

Lemma testbit_rocMask (shift i : Z) :
  0 <= shift -> 0 <= i ->
  Z.testbit (Z.shiftl rocIdMaskBits shift) i = (shift <=? i) && (i <? shift + 5).
Proof.
  intros Hs Hi.
  rewrite Z.shiftl_spec by lia.
  change rocIdMaskBits with (Z.ones 5).
  destruct (Z.leb_spec shift i) as [Hle | Hlt]; simpl.
  - rewrite Z.testbit_ones_nonneg by lia.
    destruct (Z.ltb_spec (i - shift) 5), (Z.ltb_spec i (shift + 5)); lia || reflexivity.
  - apply Z.testbit_neg_r. lia.
Qed.

Lemma testbit_lnot32 (x i : Z) :
  0 <= i -> Z.testbit (lnot32 x) i = negb (Z.testbit x i) && (i <? 32).
Proof.
  intros Hi. unfold lnot32, UINT32_MAX.
  rewrite Z.land_spec, Z.lnot_spec, Z.testbit_ones_nonneg by lia.
  reflexivity.
Qed.

(** Packing what [unpackRoc] returns gives the identifier back, for every
    shift that keeps the five-bit field inside the 32 bits. *)
Lemma packRoc_unpackRoc (shift id : Z) :
  0 <= shift -> shift + 5 <= 32 -> is_uint32 id ->
  packRoc shift (unpackRoc shift id) = id.
Proof.
  intros Hs Hfit Hid. unfold packRoc, unpackRoc. cbn [fst snd].
  apply Z.bits_inj'. intros i Hi.
  rewrite Z.lor_spec, Z.land_spec, testbit_lnot32, testbit_rocMask by lia.
  rewrite Z.shiftl_spec by lia.
  destruct (Z.le_gt_cases shift i) as [Hle | Hlt].
  - rewrite Z.shiftr_spec by lia.
    replace (i - shift + shift) with i by lia.
    rewrite Z.land_spec, testbit_rocMask by lia.
    destruct (Z.le_gt_cases 32 i) as [H32 | H32].
    + rewrite (testbit_uint32_high id i) by assumption. reflexivity.
    + destruct (Z.ltb_spec i 32); [| lia].
      destruct (Z.testbit id i), (shift <=? i), (i <? shift + 5); reflexivity.
  - rewrite (Z.testbit_neg_r _ (i - shift)) by lia.
    destruct (Z.leb_spec shift i); [lia |].
    destruct (Z.ltb_spec i 32); [| lia].
    destruct (Z.testbit id i); reflexivity.
Qed.

Lemma unpackRoc_range (shift id : Z) :
  0 <= shift ->
  is_uint32 (fst (unpackRoc shift id)) /\ 0 <= snd (unpackRoc shift id) < 32.
Proof.
  intros Hs. unfold unpackRoc. cbn [fst snd]. split.
  - unfold lnot32, UINT32_MAX, is_uint32.
    rewrite Z.land_assoc, Z.land_ones by lia.
    apply Z.mod_pos_bound. lia.
  - assert (Hroc : Z.shiftr (Z.land id (Z.shiftl rocIdMaskBits shift)) shift
                   = Z.land (Z.shiftr id shift) rocIdMaskBits).
    { rewrite Z.shiftr_land, Z.shiftr_shiftl_l by lia.
      rewrite Z.sub_diag. reflexivity. }
    rewrite Hroc. change rocIdMaskBits with (Z.ones 5).
    rewrite Z.land_ones by lia.
    pose proof (Z.mod_pos_bound (Z.shiftr id shift) (2 ^ 5)). lia.
Qed.

(** ** Decoding a key *)

Section DecodingFacts.
Context {D : DetIdInterface}.

Lemma rocShift_cases (id : Z) :
  rocShift id = BPixRocIdShift \/ rocShift id = FPixRocIdShift.
Proof. unfold rocShift. destruct (subdetId id =? PixelBarrel); auto. Qed.

(** C4. For every 32-bit identifier and for both region shifts (6 for
    the barrel, 3 otherwise), the decomposition into
    [moduleId = id & ~(0x1F << shift)] and
    [regionIndex = (id & (0x1F << shift)) >> shift] is what the code
    computes, and [moduleId | (regionIndex << shift)] is [id] again.  The
    decoding is a total function: it yields one pair for every
    identifier, a 32-bit module identifier and a region index below 32;
    the code selects one of the two shifts by the subdetector of the
    identifier. *)
Theorem extractRegion_roundtrip (id : Z) :
  is_uint32 id ->
  (forall shift, shift = BPixRocIdShift \/ shift = FPixRocIdShift ->
     exists moduleId regionIndex,
       unpackRoc shift id = (moduleId, regionIndex)
       /\ moduleId = Z.land id (lnot32 (Z.shiftl 0x1F shift))
       /\ regionIndex = Z.shiftr (Z.land id (Z.shiftl 0x1F shift)) shift
       /\ Z.lor moduleId (Z.shiftl regionIndex shift) = id
       /\ is_uint32 moduleId /\ 0 <= regionIndex < 32)
  /\ rocShift id = (if subdetId id =? PixelBarrel then 6 else 3)
  /\ decodeKey id = unpackRoc (rocShift id) id
  /\ packRoc (rocShift id) (decodeKey id) = id.
Proof.
  intros Hid. split; [| split; [reflexivity | split; [reflexivity |]]].
  - intros shift Hshift.
    assert (Hs : 0 <= shift /\ shift + 5 <= 32).
    { unfold BPixRocIdShift, FPixRocIdShift in Hshift. lia. }
    destruct Hs as [Hs Hfit].
    exists (fst (unpackRoc shift id)), (snd (unpackRoc shift id)).
    split; [reflexivity |]. split; [reflexivity |]. split; [reflexivity |].
    split; [exact (packRoc_unpackRoc shift id Hs Hfit Hid) |].
    apply unpackRoc_range; assumption.
  - unfold decodeKey. apply packRoc_unpackRoc; [| | assumption];
      destruct (rocShift_cases id) as [-> | ->];
      unfold BPixRocIdShift, FPixRocIdShift; lia.
Qed.

(** *** The accumulator of [pbrf], read key by key *)

Lemma pbrf_snoc (m : FactorMap) (e : Z * float) :
  pbrf (m ++ [e]) = pbrf_step (pbrf m) e.
Proof. unfold pbrf. rewrite fold_left_app. reflexivity. Qed.

Lemma pbrf_step_lookup_same (f : gmap Z packedBadRocFraction) (e : Z * float) :
  pbrf_step f e !! moduleOf e =
    let p := default emptyFraction (f !! moduleOf e) in
    Some (if rocOf e =? 0 then p else appendRegion e p).
Proof.
  unfold pbrf_step, appendRegion, moduleOf, rocOf.
  destruct (decodeKey (fst e)) as [rawid rocId]. cbn [fst snd].
  destruct (rocId =? 0); cbn [negb].
  - destruct (f !! rawid) eqn:Hf; cbn.
    + exact Hf.
    + apply lookup_insert_eq.
  - rewrite lookup_alter_eq.
    destruct (f !! rawid) eqn:Hf; cbn.
    + rewrite Hf. reflexivity.
    + rewrite lookup_insert_eq. reflexivity.
Qed.

Lemma pbrf_step_lookup_other (f : gmap Z packedBadRocFraction) (e : Z * float) (k : Z) :
  moduleOf e <> k -> pbrf_step f e !! k = f !! k.
Proof.
  unfold pbrf_step, moduleOf.
  destruct (decodeKey (fst e)) as [rawid rocId]. cbn [fst]. intros Hne.
  assert (Hbase : (match f !! rawid with
                   | Some _ => f
                   | None => <[rawid := emptyFraction]> f
                   end) !! k = f !! k).
  { destruct (f !! rawid); [reflexivity | apply lookup_insert_ne; assumption]. }
  destruct (negb (rocId =? 0)); [| exact Hbase].
  rewrite lookup_alter_ne by assumption. exact Hbase.
Qed.

Lemma regionsOf_absent (m : FactorMap) (k : Z) :
  existsb (fun e => moduleOf e =? k) m = false -> regionsOf k m = [].
Proof.
  unfold regionsOf. induction m as [| e m IH]; [reflexivity |].
  cbn [existsb List.filter]. intros Hex.
  apply orb_false_elim in Hex as [He Hm].
  rewrite He. cbn [andb]. auto.
Qed.

(** Every key of the result holds the regions of its module, in the
    order of the input; a module is a key exactly when some entry decodes
    to it. *)
Lemma pbrf_lookup (m : FactorMap) (k : Z) :
  pbrf m !! k =
    if existsb (fun e => moduleOf e =? k) m then Some (fractionOf k m) else None.
Proof.
  induction m as [| e m IH] using rev_ind.
  - reflexivity.
  - rewrite pbrf_snoc, existsb_app. cbn [existsb]. rewrite orb_false_r.
    assert (Hsnoc : regionsOf k (m ++ [e]) =
              regionsOf k m ++ (if (moduleOf e =? k) && negb (rocOf e =? 0) then [e] else [])).
    { unfold regionsOf. rewrite List.filter_app. cbn [List.filter].
      destruct ((moduleOf e =? k) && negb (rocOf e =? 0)); reflexivity. }
    unfold fractionOf in *. rewrite Hsnoc, !map_app. clear Hsnoc.
    destruct (Z.eqb_spec (moduleOf e) k) as [Heq | Hne].
    + subst k. rewrite pbrf_step_lookup_same, IH, orb_true_r. cbn zeta.
      unfold appendRegion.
      destruct (existsb (fun e0 => moduleOf e0 =? moduleOf e) m) eqn:Hex.
      * destruct (rocOf e =? 0); cbn [negb andb map default];
          rewrite ?app_nil_r; reflexivity.
      * rewrite (regionsOf_absent m _ Hex).
        destruct (rocOf e =? 0); reflexivity.
    + rewrite pbrf_step_lookup_other, IH by assumption.
      cbn [andb map]. rewrite orb_false_r, !app_nil_r. reflexivity.
Qed.

Lemma rocOf_range (e : Z * float) : 0 <= rocOf e < 32.
Proof.
  unfold rocOf, decodeKey. apply unpackRoc_range.
  destruct (rocShift_cases (fst e)) as [-> | ->];
    unfold BPixRocIdShift, FPixRocIdShift; lia.
Qed.

Lemma regionsOf_spec (m : FactorMap) (k : Z) (e : Z * float) :
  In e (regionsOf k m) <-> In e m /\ moduleOf e = k /\ rocOf e <> 0.
Proof.
  unfold regionsOf. rewrite List.filter_In, andb_true_iff, negb_true_iff.
  rewrite Z.eqb_eq, Z.eqb_neq. tauto.
Qed.

(** C6. For every input map, the keys of the result of [pbrf] are
    exactly the modules the input keys decode to (also a module all of
    whose entries carry the raw region 0), each once; in every record
    the region indices and the fractions have the same length; and the
    region indices are the raw indices minus one of the entries whose raw
    index is not 0, in the order of the input, so an entry with the raw
    index 0 emits nothing and every emitted index lies in 0..30. *)
Theorem unpackRegions_invariant (m : FactorMap) :
  dom (pbrf m) = (list_to_set (map moduleOf m) : gset Z)
  /\ NoDup (map fst (map_to_list (pbrf m)))
  /\ forall (rawid : Z) (p : packedBadRocFraction),
       pbrf m !! rawid = Some p ->
       length (badRocNumber p) = length (badRocFrac p)
       /\ badRocNumber p = map (fun e => rocOf e - 1) (regionsOf rawid m)
       /\ Forall (fun r => 0 <= r <= 30
                    /\ exists e, In e m /\ moduleOf e = rawid
                                 /\ rocOf e <> 0 /\ r = rocOf e - 1)
            (badRocNumber p).
Proof.
  split; [| split].
  - apply set_eq. intros k.
    rewrite elem_of_dom, pbrf_lookup, elem_of_list_to_set, list_elem_of_In, in_map_iff.
    destruct (existsb (fun e => moduleOf e =? k) m) eqn:Hex.
    + apply existsb_exists in Hex as (e & Hin & Heq). apply Z.eqb_eq in Heq.
      split; [intros _; exists e; auto | intros _; eexists; reflexivity].
    + split; [intros [x Hx]; discriminate Hx |].
      intros (e & Heq & Hin). exfalso.
      assert (Htrue : existsb (fun e => moduleOf e =? k) m = true).
      { apply existsb_exists. exists e. split; [assumption | apply Z.eqb_eq; assumption]. }
      congruence.
  - apply (NoDup_fst_map_to_list (pbrf m)).
  - intros rawid p Hp. rewrite pbrf_lookup in Hp.
    destruct (existsb (fun e => moduleOf e =? rawid) m); [| discriminate Hp].
    injection Hp as <-. unfold fractionOf. cbn [badRocNumber badRocFrac].
    split; [rewrite !length_map; reflexivity | split; [reflexivity |]].
    apply List.Forall_forall. intros r Hr.
    apply in_map_iff in Hr as (e & <- & He).
    apply regionsOf_spec in He as (Hin & Hmod & Hroc).
    pose proof (rocOf_range e) as Hrange.
    split; [lia |]. exists e. auto.
Qed.

(** C5. For two keys that decode to the same module with the raw region
    indices 0 and 3, carrying the factors 0.9 and 0.5, [pbrf] returns a
    map with the module as its only key, whose record holds one region:
    index 2 (the raw index minus one) with the fraction 0.5 (one minus
    the factor); the entry of raw region 0 alone yields the module key
    with an empty record.  The order of the two entries does not
    matter. *)
Theorem unpackRegions_example (k0 k3 moduleId : Z) :
  decodeKey k0 = (moduleId, 0) ->
  decodeKey k3 = (moduleId, 3) ->
  let expected : gmap Z packedBadRocFraction :=
    {[ moduleId := {| badRocNumber := [2]; badRocFrac := [d0_5] |} ]} in
  pbrf [(k0, d0_9); (k3, d0_5)] = expected
  /\ pbrf [(k3, d0_5); (k0, d0_9)] = expected
  /\ size (pbrf [(k0, d0_9); (k3, d0_5)]) = 1%nat
  /\ pbrf [(k0, d0_9)] = {[ moduleId := emptyFraction ]}.
Proof.
  intros H0 H3 expected.
  assert (Hm0 : forall v, moduleOf (k0, v) = moduleId) by (intros v; unfold moduleOf; cbn [fst]; rewrite H0; reflexivity).
  assert (Hm3 : forall v, moduleOf (k3, v) = moduleId) by (intros v; unfold moduleOf; cbn [fst]; rewrite H3; reflexivity).
  assert (Hr0 : forall v, rocOf (k0, v) = 0) by (intros v; unfold rocOf; cbn [fst]; rewrite H0; reflexivity).
  assert (Hr3 : forall v, rocOf (k3, v) = 3) by (intros v; unfold rocOf; cbn [fst]; rewrite H3; reflexivity).
  assert (Hlook : forall l k,
            (l = [(k0, d0_9); (k3, d0_5)] \/ l = [(k3, d0_5); (k0, d0_9)]) ->
            pbrf l !! k = expected !! k).
  { intros l k Hl. rewrite pbrf_lookup. unfold expected.
    destruct (Z.eq_dec moduleId k) as [<- | Hne].
    - rewrite lookup_singleton_eq.
      destruct Hl as [-> | ->]; cbn [existsb]; rewrite ?Hm0, ?Hm3, Z.eqb_refl; cbn [orb];
        unfold fractionOf, regionsOf; cbn [List.filter];
        rewrite !Hm0, !Hm3, !Hr0, !Hr3, Z.eqb_refl; cbn [andb negb Z.eqb map snd];
        rewrite ?Hr3; reflexivity.
    - rewrite lookup_singleton_ne by assumption.
      destruct Hl as [-> | ->]; cbn [existsb]; rewrite !Hm0, !Hm3;
        destruct (Z.eqb_spec moduleId k); [contradiction | reflexivity | contradiction | reflexivity]. }
  assert (Hfst : pbrf [(k0, d0_9); (k3, d0_5)] = expected)
    by (apply map_eq; intros k; apply Hlook; auto).
  split; [exact Hfst | split; [| split]].
  - apply map_eq; intros k; apply Hlook; auto.
  - rewrite Hfst. apply map_size_singleton.
  - apply map_eq. intros k. rewrite pbrf_lookup. cbn [existsb]. rewrite Hm0, orb_false_r.
    destruct (Z.eqb_spec moduleId k) as [<- | Hne].
    + rewrite lookup_singleton_eq. unfold fractionOf, regionsOf. cbn [List.filter].
      rewrite Hr0, andb_false_r. reflexivity.
    + rewrite lookup_singleton_ne by assumption. reflexivity.
Qed.

End DecodingFacts.

(** ** Matching *)

Section MatchingFacts.
Context {D : DetIdInterface}.

Lemma mask_loop_bounds (detid mapid : Z) (rest : list Z) (i : nat) :
  (i <= mask_loop detid mapid rest i <= i + length rest)%nat.
Proof.
  revert i. induction rest as [| maskid rest IH]; intros i; cbn [mask_loop length].
  - lia.
  - destruct (negb (subdetId maskid =? subdetId mapid)).
    + specialize (IH (S i)). lia.
    + destruct (disqualifies detid mapid maskid); [lia |].
      specialize (IH (S i)). lia.
Qed.

(** The loop runs to the end exactly when no mask of the stored
    identifier's subdetector disqualifies it. *)
Lemma mask_loop_complete (detid mapid : Z) (rest : list Z) (i : nat) :
  mask_loop detid mapid rest i = (i + length rest)%nat <->
  forall m, In m rest -> subdetId m = subdetId mapid ->
            disqualifies detid mapid m = false.
Proof.
  revert i. induction rest as [| maskid rest IH]; intros i; cbn [mask_loop length In].
  - split; [intros _ m [] | lia].
  - destruct (Z.eqb_spec (subdetId maskid) (subdetId mapid)) as [Heq | Hne]; cbn [negb].
    + destruct (disqualifies detid mapid maskid) eqn:Hdis.
      * split; [lia |]. intros Hall.
        rewrite (Hall maskid) in Hdis by auto. discriminate Hdis.
      * rewrite <- Nat.add_succ_comm, IH.
        split; [intros Hall m [<- | Hin] Hm; auto | intros Hall m Hin; auto].
    + rewrite <- Nat.add_succ_comm, IH.
      split; [intros Hall m [<- | Hin] Hm; [contradiction | auto] | intros Hall m Hin; auto].
Qed.

Lemma disqualifies_false (detid mapid m : Z) :
  disqualifies detid mapid m = false <->
  Z.land detid m = Z.land mapid m
  \/ Z.land mapid m = DetId2 (det mapid) (subdetId mapid).
Proof.
  unfold disqualifies. rewrite andb_false_iff, !negb_false_iff, !Z.eqb_eq. tauto.
Qed.

Lemma entry_matches_code (targetId storedId : Z) (masks : list Z) :
  entry_matches targetId storedId masks = true <->
  code_matchPredicate targetId storedId masks.
Proof.
  unfold entry_matches, code_matchPredicate.
  rewrite andb_true_iff, Z.eqb_eq, Nat.eqb_eq.
  rewrite (mask_loop_complete targetId storedId masks 0).
  split; intros [Hsub Hall]; (split; [congruence |]);
    intros m Hin Hm; apply disqualifies_false; auto.
Qed.

Lemma geom_step_matches (detid : Z) (masks : list Z) (acc : float) (e : Z * float) :
  geom_step detid masks acc e =
    if entry_matches detid (fst e) masks then (acc * snd e)%float else acc.
Proof.
  unfold geom_step, entry_matches.
  destruct (subdetId (fst e) =? subdetId detid); cbn [negb andb]; [| reflexivity].
  destruct (mask_loop detid (fst e) masks 0 =? length masks)%nat; reflexivity.
Qed.

Lemma pu_step_matches (detid : Z) (masks : list Z) (acc : list float) (e : Z * list float) :
  pu_step detid masks acc e =
    if entry_matches detid (fst e) masks then snd e else acc.
Proof.
  unfold pu_step, entry_matches.
  destruct (subdetId (fst e) =? subdetId detid); cbn [negb andb]; [| reflexivity].
  destruct (mask_loop detid (fst e) masks 0 =? length masks)%nat; reflexivity.
Qed.

Lemma geom_fold_product (detid : Z) (masks : list Z) (m : FactorMap) (acc : float) :
  fold_left (geom_step detid masks) m acc =
  fold_left PrimFloat.mul
    (map snd (List.filter (fun e => entry_matches detid (fst e) masks) m)) acc.
Proof.
  revert acc. induction m as [| e m IH]; intros acc; [reflexivity |].
  cbn [fold_left List.filter]. rewrite IH, geom_step_matches.
  destruct (entry_matches detid (fst e) masks); reflexivity.
Qed.

Lemma last_cons_default {A : Type} (x d : A) (l : list A) :
  List.last (x :: l) d = List.last l x.
Proof.
  revert x d. induction l as [| y l IH]; intros x d; [reflexivity |].
  change (List.last (x :: y :: l) d) with (List.last (y :: l) d).
  rewrite (IH y d), (IH y x). reflexivity.
Qed.

Lemma pu_fold_last (detid : Z) (masks : list Z) (m : PUFactorMap) (acc : list float) :
  fold_left (pu_step detid masks) m acc =
  List.last (map snd (List.filter (fun e => entry_matches detid (fst e) masks) m)) acc.
Proof.
  revert acc. induction m as [| e m IH]; intros acc; [reflexivity |].
  cbn [fold_left List.filter]. rewrite IH, pu_step_matches.
  destruct (entry_matches detid (fst e) masks); [| reflexivity].
  cbn [map]. rewrite last_cons_default. reflexivity.
Qed.

Lemma filter_none {A : Type} (f : A -> bool) (l : list A) :
  (forall x, In x l -> f x = false) -> List.filter f l = [].
Proof.
  induction l as [| x l IH]; intros Hall; [reflexivity |].
  cbn [List.filter]. rewrite (Hall x) by (left; reflexivity).
  apply IH. intros y Hy. apply Hall. right. assumption.
Qed.

(** C1 (amended). [getMatchingGeomFactor] is the product, taken in
    iteration order from 1.0, of the values of the entries that match the
    target; it is 1.0 on the empty map; and on two matching entries with
    the values 0.9 and 0.8, in either order, it is the double product
    [0.9 * 0.8], which is 0.7200000000000001, the double that follows
    the one nearest to 0.72. *)
Theorem resolveScalar_product (detid : Z) (m : FactorMap) (masks : list Z) :
  getMatchingGeomFactor detid m masks =
    fold_left PrimFloat.mul
      (map snd (List.filter (fun e => entry_matches detid (fst e) masks) m)) 1%float
  /\ getMatchingGeomFactor detid [] masks = 1%float
  /\ forall k1 k2 : Z,
       entry_matches detid k1 masks = true ->
       entry_matches detid k2 masks = true ->
       getMatchingGeomFactor detid [(k1, d0_9); (k2, d0_8)] masks = (d0_9 * d0_8)%float
       /\ getMatchingGeomFactor detid [(k1, d0_8); (k2, d0_9)] masks = (d0_9 * d0_8)%float
       /\ (d0_9 * d0_8)%float = 0x1.70a3d70a3d70bp-1%float
       /\ (d0_9 * d0_8)%float = next_up d0_72.
Proof.
  split; [apply geom_fold_product | split; [reflexivity |]].
  intros k1 k2 H1 H2. unfold getMatchingGeomFactor. cbn [fold_left].
  rewrite !geom_step_matches. cbn [fst snd]. rewrite H1, H2.
  repeat split; reflexivity.
Qed.

(** C2 (amended). An entry matches, in [getMatchingGeomFactor] and in
    [getMatchingPUFactors] alike, iff the target and the stored
    identifier have the same subdetector and, for every mask [m] of the
    stored identifier's subdetector, [(targetId & m) == (storedId & m)]
    or [(storedId & m)] is the subsystem-only identifier
    [DetId(det, subdet)] itself, not masked by [m].  A stored entry of
    another subdetector never matches, and the masks of another
    subdetector than the stored entry's are skipped.  A match implies the
    predicate of the design document, and the two agree when every mask of
    the stored identifier's subdetector contains the bits of the
    subsystem-only identifier. *)
Theorem matchPredicate_iff (targetId storedId : Z) (masks : list Z) :
  (entry_matches targetId storedId masks = true <->
     subdetId targetId = subdetId storedId
     /\ forall m, In m masks -> subdetId m = subdetId storedId ->
          Z.land targetId m = Z.land storedId m
          \/ Z.land storedId m = DetId2 (det storedId) (subdetId storedId))
  /\ (forall acc v, geom_step targetId masks acc (storedId, v) =
         if entry_matches targetId storedId masks then (acc * v)%float else acc)
  /\ (forall acc v, pu_step targetId masks acc (storedId, v) =
         if entry_matches targetId storedId masks then v else acc)
  /\ (subdetId targetId <> subdetId storedId ->
      entry_matches targetId storedId masks = false)
  /\ entry_matches targetId storedId masks =
     entry_matches targetId storedId
       (List.filter (fun m => subdetId m =? subdetId storedId) masks)
  /\ (entry_matches targetId storedId masks = true ->
      spec_matchPredicate targetId storedId masks)
  /\ ((forall m, In m masks -> subdetId m = subdetId storedId ->
        Z.land (DetId2 (det storedId) (subdetId storedId)) m
        = DetId2 (det storedId) (subdetId storedId)) ->
      (entry_matches targetId storedId masks = true <->
       spec_matchPredicate targetId storedId masks)).
Proof.
  split; [apply entry_matches_code |].
  split; [intros acc v; apply geom_step_matches |].
  split; [intros acc v; apply pu_step_matches |].
  split; [| split; [| split]].
  - intros Hne. unfold entry_matches.
    destruct (Z.eqb_spec (subdetId storedId) (subdetId targetId)); [congruence | reflexivity].
  - apply eq_true_iff_eq. rewrite !entry_matches_code. unfold code_matchPredicate.
    split; intros [Hsub Hall]; (split; [assumption |]); intros m Hin Hm.
    + apply List.filter_In in Hin as [Hin _]. auto.
    + apply Hall; [| assumption]. apply List.filter_In. split; [assumption |].
      apply Z.eqb_eq. assumption.
  - rewrite entry_matches_code. intros [Hsub Hall]. split; [assumption |].
    intros m Hin Hm. destruct (Hall m Hin Hm) as [Heq | Hwild]; [left; assumption |].
    right. rewrite <- Hwild, <- Z.land_assoc, Z.land_diag. reflexivity.
  - intros Hroot. rewrite entry_matches_code.
    unfold code_matchPredicate, spec_matchPredicate.
    split; intros [Hsub Hall]; (split; [assumption |]); intros m Hin Hm;
      specialize (Hall m Hin Hm); rewrite (Hroot m Hin Hm) in *; assumption.
Qed.

(** C3. [getMatchingPUFactors] scans the entries in iteration order and
    every matching entry replaces the whole running result by its value
    sequence, so the result is the value of the last matching entry; it
    is empty when no entry matches, in particular when no entry has the
    subdetector of the target. *)
Theorem resolveVector_last_match (detid : Z) (m : PUFactorMap) (masks : list Z) :
  getMatchingPUFactors detid m masks =
    List.last (map snd (List.filter (fun e => entry_matches detid (fst e) masks) m)) []
  /\ (forall e, getMatchingPUFactors detid (m ++ [e]) masks =
         if entry_matches detid (fst e) masks then snd e
         else getMatchingPUFactors detid m masks)
  /\ ((forall e, In e m -> entry_matches detid (fst e) masks = false) ->
      getMatchingPUFactors detid m masks = [])
  /\ ((forall e, In e m -> subdetId (fst e) <> subdetId detid) ->
      getMatchingPUFactors detid m masks = []).
Proof.
  assert (Hlast := pu_fold_last detid masks m []).
  assert (Hnone : (forall e, In e m -> entry_matches detid (fst e) masks = false) ->
                  getMatchingPUFactors detid m masks = []).
  { intros Hall. unfold getMatchingPUFactors. rewrite Hlast.
    rewrite (filter_none _ m Hall). reflexivity. }
  split; [exact Hlast | split; [| split; [exact Hnone |]]].
  - intros e. unfold getMatchingPUFactors.
    rewrite fold_left_app. cbn [fold_left]. apply pu_step_matches.
  - intros Hsub. apply Hnone. intros e Hin. unfold entry_matches.
    destruct (Z.eqb_spec (subdetId (fst e)) (subdetId detid)) as [Heq | Hne];
      [exfalso; exact (Hsub e Hin Heq) | reflexivity].
Qed.

End MatchingFacts.

(** ** Validation of the masks *)

Lemma std_equal_true (r1 r2 : list Z) :
  length r1 = length r2 -> (std_equal r1 r2 = true <-> r1 = r2).
Proof.
  revert r2. induction r1 as [| x r1 IH]; intros [| y r2] Hlen;
    cbn [std_equal length] in *; try discriminate Hlen.
  - tauto.
  - injection Hlen as Hlen.
    rewrite andb_true_iff, Z.eqb_eq, (IH r2 Hlen).
    split; [intros [-> ->]; reflexivity | intros H; injection H; auto].
Qed.

Section PhaseCheckFacts.
Variable topo : string -> TrackerTopology.

Lemma checkPhase_eq (p : phase) (masks_db : list Z) :
  checkPhase topo p masks_db = true <-> masks_db = masks_geom topo p.
Proof.
  unfold checkPhase. rewrite andb_true_iff, Nat.eqb_eq. split.
  - intros [Hlen Heq]. symmetry. apply (std_equal_true _ _ Hlen). exact Heq.
  - intros ->. split; [reflexivity |]. apply std_equal_true; reflexivity.
Qed.

Lemma masks_geom_length (p : phase) : length (masks_geom topo p) = 8%nat.
Proof. reflexivity. Qed.

(** C7. [checkPhase] answers true iff the supplied masks have the
    length of the masks derived from the geometry of the phase and agree
    with them position by position, that is iff the two sequences are
    equal: a different length or a difference at any position yields
    false.  So the masks derived for a phase pass its own check, and the
    masks derived for a phase with different fields fail it. *)
Theorem validatePhase_strict (p : phase) (masks_db : list Z) :
  (checkPhase topo p masks_db = true <->
     length masks_db = length (masks_geom topo p)
     /\ forall i, (i < length (masks_geom topo p))%nat ->
          nth i masks_db 0 = nth i (masks_geom topo p) 0)
  /\ (checkPhase topo p masks_db = true <-> masks_db = masks_geom topo p)
  /\ (length masks_db <> length (masks_geom topo p) ->
      checkPhase topo p masks_db = false)
  /\ (forall i, (i < length (masks_geom topo p))%nat ->
        nth i masks_db 0 <> nth i (masks_geom topo p) 0 ->
        checkPhase topo p masks_db = false)
  /\ checkPhase topo p (masks_geom topo p) = true
  /\ forall q, masks_geom topo q <> masks_geom topo p ->
       checkPhase topo p (masks_geom topo q) = false.
Proof.
  assert (Hfalse : forall l, l <> masks_geom topo p -> checkPhase topo p l = false).
  { intros l Hne. apply not_true_is_false. rewrite checkPhase_eq. exact Hne. }
  split; [| split; [apply checkPhase_eq | split; [| split; [| split]]]].
  - rewrite checkPhase_eq. split.
    + intros ->. auto.
    + intros [Hlen Hnth]. apply (nth_ext _ _ 0 0 Hlen).
      intros i Hi. apply Hnth. rewrite <- Hlen. exact Hi.
  - intros Hlen. apply Hfalse. intros ->. apply Hlen. reflexivity.
  - intros i Hi Hnth. apply Hfalse. intros ->. apply Hnth. reflexivity.
  - apply checkPhase_eq. reflexivity.
  - intros q Hq. apply Hfalse. exact Hq.
Qed.

(** C10. For each of the three phases the masks derived from the
    topology are eight: the three barrel masks (layer, ladder, module)
    and then the five forward masks (side, disk, blade, panel, module);
    so [checkPhase] answers false for every supplied list whose length
    is not 8, whatever it holds. *)
Theorem expectedMasks_eight (p : phase) (masks_db : list Z) :
  length (masks_geom topo p) = 8%nat
  /\ masks_geom topo p =
       (let t := topo (inputFile p) in
        [ pxbDetId t UINT32_MAX 0 0; pxbDetId t 0 UINT32_MAX 0; pxbDetId t 0 0 UINT32_MAX ]
        ++ [ pxfDetId t UINT32_MAX 0 0 0 0; pxfDetId t 0 UINT32_MAX 0 0 0;
             pxfDetId t 0 0 UINT32_MAX 0 0; pxfDetId t 0 0 0 UINT32_MAX 0;
             pxfDetId t 0 0 0 0 UINT32_MAX ])
  /\ (length masks_db <> 8%nat -> checkPhase topo p masks_db = false).
Proof.
  split; [reflexivity | split; [reflexivity |]].
  intros Hlen. unfold checkPhase. rewrite masks_geom_length.
  destruct (Nat.eqb_spec 8 (length masks_db)) as [Heq | Hne]; [| reflexivity].
  exfalso. apply Hlen. symmetry. exact Heq.
Qed.

End PhaseCheckFacts.

(** ** Page layout *)

(** On the whole [int] range the double square root of the first and of
    the last number whose integer square root is [k] lies in
    [[k, k + 1)]. *)
Lemma sqrt_double_brackets : roots_in_unit (Z.to_nat 46341) 0%uint63 = true.
Proof. vm_compute. reflexivity. Qed.

Lemma closest_loop_no_throw (input : Z) (testNum : nat) (what : string) :
  closest_loop input testNum <> Throws what.
Proof.
  induction testNum as [| k IH]; cbn [closest_loop]; [discriminate |].
  destruct (negb (Z.rem input (Z.of_nat (S k)) =? 0)); [exact IH | discriminate].
Qed.

(** From a positive start the loop stops at the largest divisor of
    [input] that does not exceed the start. *)
Lemma closest_loop_largest (input : Z) (testNum : nat) :
  (1 <= testNum)%nat ->
  exists t, closest_loop input testNum = Returns t
            /\ 1 <= t <= Z.of_nat testNum
            /\ (t | input)
            /\ forall d, t < d <= Z.of_nat testNum -> ~ (d | input).
Proof.
  induction testNum as [| k IH]; [lia |]. intros _.
  cbn [closest_loop].
  destruct (Z.eqb_spec (Z.rem input (Z.of_nat (S k))) 0) as [Hrem | Hrem]; cbn [negb].
  - exists (Z.of_nat (S k)). split; [reflexivity |]. split; [lia |].
    split; [apply Z.rem_divide; [lia | exact Hrem] | intros d Hd; lia].
  - assert (Hndiv : ~ (Z.of_nat (S k) | input)).
    { intros Hdiv. apply Hrem. apply Z.rem_divide; [lia | exact Hdiv]. }
    destruct k as [| k'].
    + exfalso. apply Hndiv. apply Z.divide_1_l.
    + destruct IH as (t & Hret & Hrange & Hdiv & Hmax); [lia |].
      exists t. split; [exact Hret |]. split; [lia |]. split; [exact Hdiv |].
      intros d Hd Hdd.
      destruct (Z.eq_dec d (Z.of_nat (S (S k')))) as [-> | Hne]; [contradiction |].
      apply (Hmax d); [lia | exact Hdd].
Qed.

(** For every count from 1 up to [INT_MAX - 1], [getClosestFactors]
    returns the pair made of the largest divisor of the cover that does
    not exceed its integer square root, and of the cofactor. *)
Theorem closestFactors_positive (n : Z) :
  1 <= n < INT_MAX ->
  exists r c,
    getClosestFactors n = Returns (r, c)
    /\ r * c = evenCover n /\ n <= r * c /\ 1 <= r <= c
    /\ r <= Z.sqrt (evenCover n) /\ (r | evenCover n)
    /\ (forall d, 0 < d <= Z.sqrt (evenCover n) -> (d | evenCover n) -> d <= r)
    /\ c = evenCover n / r.
Proof.
  intros Hn. unfold getClosestFactors.
  assert (Hcover : n <= evenCover n <= INT_MAX /\ 1 <= evenCover n).
  { unfold evenCover. destruct (negb (Z.rem n 2 =? 0) && (1 <? n)); lia. }
  destruct Hcover as [Hcover Hpos].
  assert (Hadj : (if negb (Z.rem n 2 =? 0) && (1 <? n) then int_add n 1 else Returns n)
                 = Returns (evenCover n)).
  { unfold evenCover, int_add.
    destruct (negb (Z.rem n 2 =? 0) && (1 <? n)); [| reflexivity].
    destruct (Z.leb_spec INT_MIN (n + 1)); [| unfold INT_MIN in *; lia].
    destruct (Z.leb_spec (n + 1) INT_MAX); [reflexivity | lia]. }
  rewrite Hadj. cbn [bind]. set (cover := evenCover n) in *.
  unfold int_sqrt. destruct (Z.ltb_spec cover 0) as [Hneg | _]; [lia |]. cbn [bind].
  pose proof (Z.sqrt_spec cover ltac:(lia)) as Hsqrt. cbv zeta in Hsqrt.
  assert (Hs1 : 1 <= Z.sqrt cover).
  { destruct (Z.le_gt_cases 1 (Z.sqrt cover)) as [H | H]; [exact H |].
    pose proof (Z.sqrt_nonneg cover) as Hnn.
    assert (H0 : Z.sqrt cover = 0) by lia.
    rewrite H0 in Hsqrt. cbn in Hsqrt. lia. }
  destruct (closest_loop_largest cover (Z.to_nat (Z.sqrt cover)) ltac:(lia))
    as (t & Hret & Hrange & Hdiv & Hmax).
  rewrite Hret. cbn [bind]. rewrite Z2Nat.id in * by lia.
  destruct Hdiv as [q Hq].
  assert (Hquot : Z.quot cover t = q) by (rewrite Hq; apply Z.quot_mul; lia).
  assert (Hdivq : cover / t = q) by (rewrite Hq; apply Z.div_mul; lia).
  assert (Htq : t <= q).
  { assert (Hsq : t * t <= Z.sqrt cover * Z.sqrt cover) by nia.
    assert (Hle : t * t <= q * t) by lia.
    apply (Z.mul_le_mono_pos_r t q t); lia. }
  exists t, q. rewrite Hquot.
  split; [reflexivity |]. split; [lia |]. split; [lia |].
  split; [lia |]. split; [lia |]. split; [exists q; exact Hq |].
  split; [| symmetry; exact Hdivq].
  intros d Hd Hdd. destruct (Z.le_gt_cases d t) as [H | H]; [exact H |].
  exfalso. apply (Hmax d); [lia | exact Hdd].
Qed.

(** C8. [getClosestFactors] at 6, 7 and 1 returns (2,3), (2,4) and
    (1,1); at 0 it does not return a pair: the search starts at
    [testNum = 0] and evaluates [0 % 0]. *)
Theorem closestFactors_examples :
  getClosestFactors 6 = Returns (2, 3)
  /\ getClosestFactors 7 = Returns (2, 4)
  /\ getClosestFactors 1 = Returns (1, 1)
  /\ getClosestFactors 0 = Undefined division_by_zero.
Proof. repeat split; reflexivity. Qed.

(** C9 (amended). [getClosestFactors] does not reject a negative
    argument: it checks nothing about its argument and has no error
    path, so no call, with a negative argument or any other, ends in an
    exception, and none reports an [InvalidArgument]. *)
Theorem closestFactors_negative (n : Z) (what : string) :
  getClosestFactors n <> Throws what.
Proof.
  unfold getClosestFactors.
  assert (Hadj : exists r, (if negb (Z.rem n 2 =? 0) && (1 <? n)
                            then int_add n 1 else Returns n) = r
                           /\ (forall w, r <> Throws w)).
  { eexists. split; [reflexivity |]. intros w. unfold int_add.
    destruct (negb (Z.rem n 2 =? 0) && (1 <? n)); [| discriminate].
    destruct ((INT_MIN <=? n + 1) && (n + 1 <=? INT_MAX)); discriminate. }
  destruct Hadj as (r & -> & Hr).
  destruct r as [input | w | u]; cbn [bind];
    [| exfalso; exact (Hr w eq_refl) | discriminate].
  unfold int_sqrt. destruct (input <? 0); cbn [bind]; [discriminate |].
  pose proof (closest_loop_no_throw input (Z.to_nat (Z.sqrt input))) as Hno.
  destruct (closest_loop input (Z.to_nat (Z.sqrt input))) as [t | w | u]; cbn [bind];
    [discriminate | exfalso; exact (Hno w eq_refl) | discriminate].
Qed.

(** ** The theorems at concrete identifiers *)

#[local] Existing Instance CMSSW.layout.

(** The round trip at a Phase-1 barrel key with the raw region 3. *)
Lemma extractRegion_roundtrip_witness :
  is_uint32 CMSSW.moduleA_roc3
  /\ packRoc (rocShift CMSSW.moduleA_roc3) (decodeKey CMSSW.moduleA_roc3)
     = CMSSW.moduleA_roc3.
Proof.
  assert (Hid : is_uint32 CMSSW.moduleA_roc3) by (unfold is_uint32, CMSSW.moduleA_roc3; lia).
  split; [exact Hid |].
  exact (proj2 (proj2 (proj2 (extractRegion_roundtrip CMSSW.moduleA_roc3 Hid)))).
Defined.

(** The two-entry example at a module of barrel layer 1. *)
Lemma unpackRegions_example_witness :
  decodeKey CMSSW.moduleA = (CMSSW.moduleA, 0)
  /\ decodeKey CMSSW.moduleA_roc3 = (CMSSW.moduleA, 3)
  /\ pbrf [(CMSSW.moduleA, d0_9); (CMSSW.moduleA_roc3, d0_5)]
     = {[ CMSSW.moduleA := {| badRocNumber := [2]; badRocFrac := [d0_5] |} ]}.
Proof.
  assert (H0 : decodeKey CMSSW.moduleA = (CMSSW.moduleA, 0)) by reflexivity.
  assert (H3 : decodeKey CMSSW.moduleA_roc3 = (CMSSW.moduleA, 3)) by reflexivity.
  split; [exact H0 | split; [exact H3 |]].
  exact (proj1 (unpackRegions_example CMSSW.moduleA CMSSW.moduleA_roc3 CMSSW.moduleA H0 H3)).
Defined.

(** The invariant read at the record of that module. *)
Lemma unpackRegions_invariant_witness :
  pbrf [(CMSSW.moduleA, d0_9); (CMSSW.moduleA_roc3, d0_5)] !! CMSSW.moduleA
  = Some {| badRocNumber := [2]; badRocFrac := [d0_5] |}
  /\ length [2] = length [d0_5].
Proof.
  assert (Hp : pbrf [(CMSSW.moduleA, d0_9); (CMSSW.moduleA_roc3, d0_5)] !! CMSSW.moduleA
               = Some {| badRocNumber := [2]; badRocFrac := [d0_5] |})
    by (vm_compute; reflexivity).
  split; [exact Hp |].
  exact (proj1 (proj2 (proj2 (unpackRegions_invariant
            [(CMSSW.moduleA, d0_9); (CMSSW.moduleA_roc3, d0_5)])) CMSSW.moduleA _ Hp)).
Defined.

(** A barrel-wide factor 0.9 and a layer factor 0.8 on a module of layer 1. *)
Lemma resolveScalar_product_witness :
  entry_matches CMSSW.moduleA CMSSW.barrelId CMSSW.masks1 = true
  /\ entry_matches CMSSW.moduleA CMSSW.layer1Id CMSSW.masks1 = true
  /\ getMatchingGeomFactor CMSSW.moduleA
       [(CMSSW.barrelId, d0_9); (CMSSW.layer1Id, d0_8)] CMSSW.masks1
     = (d0_9 * d0_8)%float.
Proof.
  assert (H1 : entry_matches CMSSW.moduleA CMSSW.barrelId CMSSW.masks1 = true) by reflexivity.
  assert (H2 : entry_matches CMSSW.moduleA CMSSW.layer1Id CMSSW.masks1 = true) by reflexivity.
  split; [exact H1 | split; [exact H2 |]].
  exact (proj1 (proj2 (proj2 (resolveScalar_product CMSSW.moduleA [] CMSSW.masks1))
                 CMSSW.barrelId CMSSW.layer1Id H1 H2)).
Defined.

(** C1, as stated, fails: on a module of layer 1 matched by a factor 0.9
    stored for the whole barrel and a factor 0.8 stored for its layer,
    the result is not the double 0.72, neither as a value nor under the
    comparison [==]. *)
Lemma resolveScalar_not_0_72 :
  map_wf [(CMSSW.barrelId, d0_9); (CMSSW.layer1Id, d0_8)] = true
  /\ entry_matches CMSSW.moduleA CMSSW.barrelId CMSSW.masks1 = true
  /\ entry_matches CMSSW.moduleA CMSSW.layer1Id CMSSW.masks1 = true
  /\ getMatchingGeomFactor CMSSW.moduleA
       [(CMSSW.barrelId, d0_9); (CMSSW.layer1Id, d0_8)] CMSSW.masks1 <> d0_72
  /\ PrimFloat.eqb
       (getMatchingGeomFactor CMSSW.moduleA
          [(CMSSW.barrelId, d0_9); (CMSSW.layer1Id, d0_8)] CMSSW.masks1) d0_72 = false.
Proof.
  split; [reflexivity |].
  split; [reflexivity | split; [reflexivity | split; [| reflexivity]]].
  intros H. vm_compute in H. discriminate H.
Qed.

(** With the Phase-1 masks, which all carry the detector and subdetector
    bits, the code and the design document agree on a layer entry. *)
Lemma matchPredicate_iff_witness :
  (forall m, In m CMSSW.masks1 -> subdetId m = subdetId CMSSW.layer1Id ->
     Z.land (DetId2 (det CMSSW.layer1Id) (subdetId CMSSW.layer1Id)) m
     = DetId2 (det CMSSW.layer1Id) (subdetId CMSSW.layer1Id))
  /\ (entry_matches CMSSW.moduleA CMSSW.layer1Id CMSSW.masks1 = true <->
      spec_matchPredicate CMSSW.moduleA CMSSW.layer1Id CMSSW.masks1).
Proof.
  assert (Hroot : forall m, In m CMSSW.masks1 -> subdetId m = subdetId CMSSW.layer1Id ->
            Z.land (DetId2 (det CMSSW.layer1Id) (subdetId CMSSW.layer1Id)) m
            = DetId2 (det CMSSW.layer1Id) (subdetId CMSSW.layer1Id)).
  { intros m Hin Hm. unfold CMSSW.masks1 in Hin. cbn [In] in Hin.
    repeat (destruct Hin as [<- | Hin];
            [first [reflexivity | vm_compute in Hm; discriminate Hm] |]).
    destruct Hin. }
  split; [exact Hroot |].
  exact (proj2 (proj2 (proj2 (proj2 (proj2 (proj2
           (matchPredicate_iff CMSSW.moduleA CMSSW.layer1Id CMSSW.masks1)))))) Hroot).
Defined.

(** C2, as stated, fails: for a module of layer 1, the entry stored for
    the whole barrel and a layer mask without the detector bits, the
    masked stored identifier equals the masked subsystem-only identifier,
    so the predicate of the design document holds, but the code compares
    with the subsystem-only identifier itself and the entry does not
    match. *)
Lemma matchPredicate_masked_wildcard_fails :
  entry_matches CMSSW.layer1Id CMSSW.barrelId [CMSSW.layerMaskNoDet] = false
  /\ spec_matchPredicate CMSSW.layer1Id CMSSW.barrelId [CMSSW.layerMaskNoDet]
  /\ getMatchingGeomFactor CMSSW.layer1Id [(CMSSW.barrelId, d0_5)] [CMSSW.layerMaskNoDet]
     = 1%float.
Proof.
  split; [reflexivity | split; [| reflexivity]].
  split; [reflexivity |].
  intros m [<- | []] _. right. reflexivity.
Qed.

(** Barrel entries only, asked for a forward module: nothing matches. *)
Lemma resolveVector_last_match_witness :
  (forall e, In e [(CMSSW.barrelId, [d0_9; d0_8]); (CMSSW.layer1Id, [d0_5])] ->
     subdetId (fst e) <> subdetId CMSSW.endcapModule)
  /\ getMatchingPUFactors CMSSW.endcapModule
       [(CMSSW.barrelId, [d0_9; d0_8]); (CMSSW.layer1Id, [d0_5])] CMSSW.masks1 = [].
Proof.
  assert (Hsub : forall e, In e [(CMSSW.barrelId, [d0_9; d0_8]); (CMSSW.layer1Id, [d0_5])] ->
                   subdetId (fst e) <> subdetId CMSSW.endcapModule).
  { intros e [<- | [<- | []]] H; vm_compute in H; discriminate H. }
  split; [exact Hsub |].
  exact (proj2 (proj2 (proj2 (resolveVector_last_match CMSSW.endcapModule
           [(CMSSW.barrelId, [d0_9; d0_8]); (CMSSW.layer1Id, [d0_5])] CMSSW.masks1))) Hsub).
Defined.

(** The masks of the phase-zero sample layout fail the check of phase one. *)
Lemma validatePhase_strict_witness :
  masks_geom CMSSW.sampleTopology zero <> masks_geom CMSSW.sampleTopology one
  /\ checkPhase CMSSW.sampleTopology one (masks_geom CMSSW.sampleTopology zero) = false.
Proof.
  assert (Hne : masks_geom CMSSW.sampleTopology zero <> masks_geom CMSSW.sampleTopology one).
  { intros H. vm_compute in H. discriminate H. }
  split; [exact Hne |].
  exact (proj2 (proj2 (proj2 (proj2 (proj2
           (validatePhase_strict CMSSW.sampleTopology one [])))))
           zero Hne).
Defined.

(** The three barrel masks alone, a strict prefix, fail the check. *)
Lemma expectedMasks_eight_witness :
  length [317718528; 303034368; 301993980] <> 8%nat
  /\ checkPhase CMSSW.sampleTopology one [317718528; 303034368; 301993980] = false.
Proof.
  assert (Hlen : length [317718528; 303034368; 301993980] <> 8%nat)
    by (cbn [length]; lia).
  split; [exact Hlen |].
  exact (proj2 (proj2 (expectedMasks_eight CMSSW.sampleTopology one
                         [317718528; 303034368; 301993980])) Hlen).
Defined.

(** Seven slots are laid out on a grid of eight cells. *)
Lemma closestFactors_positive_witness :
  1 <= 7 < INT_MAX
  /\ exists r c, getClosestFactors 7 = Returns (r, c) /\ r * c = 8 /\ 1 <= r <= c.
Proof.
  assert (H7 : 1 <= 7 < INT_MAX) by (unfold INT_MAX; lia).
  split; [exact H7 |].
  destruct (closestFactors_positive 7 H7) as (r & c & Hret & Hmul & _ & Hrc & _).
  exists r, c. split; [exact Hret | split; [exact Hmul | exact Hrc]].
Defined.

(** C9, as stated, fails: the call at the negative argument -4 does not
    end in an [InvalidArgument] error. *)
Lemma closestFactors_no_InvalidArgument :
  -4 < 0 /\ getClosestFactors (-4) <> Throws "InvalidArgument".
Proof. split; [lia | discriminate]. Qed.

(** * Further properties: the callers and the composition of the helpers *)

(** ** The legacy check *)

Lemma std_find_found_In (det : Z) (ids : list Z) :
  std_find_found det ids = true <-> In det ids.
Proof.
  induction ids as [| id ids IH]; cbn [std_find_found In].
  - split; [discriminate | tauto].
  - destruct (Z.eqb_spec id det) as [-> | Hne]; [tauto |].
    rewrite IH. split; [auto | intros [Heq | Hin]; [contradiction | exact Hin]].
Qed.

Lemma isPhase0_loop_true (p0detIds ownDetIds : list Z) :
  isPhase0_loop p0detIds ownDetIds = true <->
  exists det, In det ownDetIds /\ In det p0detIds.
Proof.
  induction ownDetIds as [| det rest IH]; cbn [isPhase0_loop In].
  - split; [discriminate | intros (det & [] & _)].
  - destruct (std_find_found det p0detIds) eqn:Hfound.
    + apply std_find_found_In in Hfound. split; [intros _; exists det; auto | reflexivity].
    + rewrite IH. split.
      * intros (d & Hin & Hp0). exists d. auto.
      * intros (d & [<- | Hin] & Hp0); [| exists d; auto].
        apply std_find_found_In in Hp0. congruence.
Qed.

Lemma enumerates_keys (elems : list (Z * packedBadRocFraction))
    (fractions : gmap Z packedBadRocFraction) (det : Z) :
  enumerates elems fractions ->
  (In det (map fst elems) <-> is_Some (fractions !! det)).
Proof.
  intros Hperm. rewrite in_map_iff. split.
  - intros ([k p] & <- & Hin). exists p. cbn [fst].
    apply elem_of_map_to_list. apply list_elem_of_In.
    apply (Permutation_in _ Hperm). exact Hin.
  - intros [p Hp]. exists (det, p). split; [reflexivity |].
    apply (Permutation_in _ (Permutation_sym Hperm)).
    apply list_elem_of_In. apply elem_of_map_to_list. exact Hp.
Qed.

(** [isPhase0] answers true exactly when some key of the unpacked map is
    in the reference list, whatever the iteration order of the map; it
    answers false for an empty map and for an empty reference list. *)
Theorem isPhase0_some_key (p0detIds : list Z)
    (elems : list (Z * packedBadRocFraction)) (fractions : gmap Z packedBadRocFraction) :
  enumerates elems fractions ->
  (isPhase0 p0detIds elems = true <->
     exists det, is_Some (fractions !! det) /\ In det p0detIds)
  /\ (fractions = ∅ -> isPhase0 p0detIds elems = false)
  /\ (p0detIds = [] -> isPhase0 p0detIds elems = false).
Proof.
  intros Hperm.
  assert (Hiff : isPhase0 p0detIds elems = true <->
                 exists det, is_Some (fractions !! det) /\ In det p0detIds).
  { unfold isPhase0. rewrite isPhase0_loop_true.
    split; intros (det & Hkey & Hp0); exists det; (split; [| exact Hp0]);
      apply (enumerates_keys elems fractions det Hperm); exact Hkey. }
  split; [exact Hiff | split].
  - intros ->. apply not_true_is_false. rewrite Hiff.
    intros (det & [p Hp] & _). rewrite lookup_empty in Hp. discriminate Hp.
  - intros ->. apply not_true_is_false. rewrite Hiff.
    intros (det & _ & []).
Qed.

Section LegacyOfPayload.
Context {D : DetIdInterface}.

(** On the result of [pbrf], [isPhase0] looks at the module identifiers,
    with the region bits cleared: it answers true exactly when some key
    of the payload decodes to a module of the reference list. *)
Theorem isPhase0_of_pbrf (p0detIds : list Z) (m : FactorMap)
    (elems : list (Z * packedBadRocFraction)) :
  enumerates elems (pbrf m) ->
  (isPhase0 p0detIds elems = true <->
   exists e, In e m /\ In (moduleOf e) p0detIds).
Proof.
  intros Hperm. unfold isPhase0. rewrite isPhase0_loop_true. split.
  - intros (det & Hkey & Hp0).
    apply (enumerates_keys elems (pbrf m) det Hperm) in Hkey as [p Hp].
    rewrite pbrf_lookup in Hp.
    destruct (existsb (fun e => moduleOf e =? det) m) eqn:Hex; [| discriminate Hp].
    apply existsb_exists in Hex as (e & Hin & Heq). apply Z.eqb_eq in Heq.
    exists e. subst det. auto.
  - intros (e & Hin & Hp0). exists (moduleOf e). split; [| exact Hp0].
    apply (enumerates_keys elems (pbrf m) _ Hperm).
    rewrite pbrf_lookup.
    assert (Hex : existsb (fun e0 => moduleOf e0 =? moduleOf e) m = true).
    { apply existsb_exists. exists e. split; [exact Hin | apply Z.eqb_refl]. }
    rewrite Hex. eexists. reflexivity.
Qed.

End LegacyOfPayload.

(** ** More on matching *)

Section MatchingMore.
Context {D : DetIdInterface}.

(** An entry stored under the identifier of the target itself matches,
    whatever the masks. *)
Theorem entry_matches_same_id (detid : Z) (masks : list Z) :
  entry_matches detid detid masks = true.
Proof.
  apply entry_matches_code. split; [reflexivity |].
  intros m _ _. left. reflexivity.
Qed.

(** Matching against a list of masks is the conjunction of matching
    against its parts, so an entry that fails some masks fails every
    longer list, and the order of the masks does not matter. *)
Theorem entry_matches_masks (detid mapid : Z) (masks1 masks2 masks' : list Z) :
  entry_matches detid mapid (masks1 ++ masks2) =
    entry_matches detid mapid masks1 && entry_matches detid mapid masks2
  /\ (Permutation (masks1 ++ masks2) masks' ->
      entry_matches detid mapid masks' = entry_matches detid mapid (masks1 ++ masks2)).
Proof.
  split.
  - apply eq_true_iff_eq.
    rewrite andb_true_iff, !entry_matches_code. unfold code_matchPredicate.
    split.
    + intros [Hsub Hall]. split; (split; [exact Hsub |]); intros m Hin;
        apply Hall; apply in_or_app; auto.
    + intros [[Hsub H1] [_ H2]]. split; [exact Hsub |].
      intros m Hin. apply in_app_or in Hin as [Hin | Hin]; auto.
  - intros Hperm. apply eq_true_iff_eq.
    rewrite !entry_matches_code. unfold code_matchPredicate.
    split; intros [Hsub Hall]; (split; [exact Hsub |]); intros m Hin; apply Hall.
    + apply (Permutation_in _ Hperm). exact Hin.
    + apply (Permutation_in _ (Permutation_sym Hperm)). exact Hin.
Qed.

(** A stored identifier that, under every mask of its subdetector, shows
    the subsystem-only identifier matches every target of that
    subdetector. *)
Theorem entry_matches_wildcard (detid mapid : Z) (masks : list Z) :
  subdetId detid = subdetId mapid ->
  (forall m, In m masks -> subdetId m = subdetId mapid ->
     Z.land mapid m = DetId2 (det mapid) (subdetId mapid)) ->
  entry_matches detid mapid masks = true.
Proof.
  intros Hsub Hwild. apply entry_matches_code. split; [exact Hsub |].
  intros m Hin Hm. right. exact (Hwild m Hin Hm).
Qed.

Lemma mask_loop_stop (detid mapid : Z) (rest : list Z) (i : nat) :
  (mask_loop detid mapid rest i < i + length rest)%nat ->
  exists maskid,
    rest !! (mask_loop detid mapid rest i - i)%nat = Some maskid
    /\ subdetId maskid = subdetId mapid
    /\ disqualifies detid mapid maskid = true
    /\ forall j m, (j < mask_loop detid mapid rest i - i)%nat -> rest !! j = Some m ->
         subdetId m = subdetId mapid -> disqualifies detid mapid m = false.
Proof.
  revert i. induction rest as [| maskid rest IH]; intros i; cbn [mask_loop length].
  - lia.
  - pose proof (mask_loop_bounds detid mapid rest (S i)) as Hb.
    destruct (Z.eqb_spec (subdetId maskid) (subdetId mapid)) as [Heq | Hne]; cbn [negb].
    + destruct (disqualifies detid mapid maskid) eqn:Hdis.
      * intros _. exists maskid. rewrite Nat.sub_diag.
        split; [reflexivity | split; [exact Heq | split; [exact Hdis |]]].
        intros j m Hj. lia.
      * intros Hlt. destruct (IH (S i)) as (mk & Hlook & Hmk & Hdk & Hbefore); [lia |].
        exists mk.
        replace (mask_loop detid mapid rest (S i) - i)%nat
          with (S (mask_loop detid mapid rest (S i) - S i)) by lia.
        split; [exact Hlook | split; [exact Hmk | split; [exact Hdk |]]].
        intros [| j] m Hj Hm Hsub.
        -- cbn in Hm. injection Hm as <-. exact Hdis.
        -- apply (Hbefore j m); [lia | exact Hm | exact Hsub].
    + intros Hlt. destruct (IH (S i)) as (mk & Hlook & Hmk & Hdk & Hbefore); [lia |].
      exists mk.
      replace (mask_loop detid mapid rest (S i) - i)%nat
        with (S (mask_loop detid mapid rest (S i) - S i)) by lia.
      split; [exact Hlook | split; [exact Hmk | split; [exact Hdk |]]].
      intros [| j] m Hj Hm Hsub.
      -- cbn in Hm. injection Hm as <-. contradiction.
      -- apply (Hbefore j m); [lia | exact Hm | exact Hsub].
Qed.

(** The inner loop never leaves the masks: it ends with [__i] at most
    their number, and below it exactly at the first mask of the stored
    identifier's subdetector that disqualifies the entry. *)
Theorem mask_loop_first_disqualifier (detid mapid : Z) (masks : list Z) :
  (mask_loop detid mapid masks 0 <= length masks)%nat
  /\ ((mask_loop detid mapid masks 0 < length masks)%nat ->
      exists maskid,
        masks !! mask_loop detid mapid masks 0 = Some maskid
        /\ subdetId maskid = subdetId mapid
        /\ disqualifies detid mapid maskid = true
        /\ forall j m, (j < mask_loop detid mapid masks 0)%nat -> masks !! j = Some m ->
             subdetId m = subdetId mapid -> disqualifies detid mapid m = false).
Proof.
  split; [apply (mask_loop_bounds detid mapid masks 0) |].
  intros Hlt. destruct (mask_loop_stop detid mapid masks 0 Hlt) as (mk & H).
  rewrite Nat.sub_0_r in H. exists mk. exact H.
Qed.

(** With no matching entry, in particular with no entry of the target's
    subdetector, the scalar factor is 1.0; entries that do not match
    never change the result of either resolution. *)
Theorem resolve_ignores_unmatched (detid : Z) (masks : list Z)
    (m : FactorMap) (mpu : PUFactorMap) :
  ((forall e, In e m -> entry_matches detid (fst e) masks = false) ->
     getMatchingGeomFactor detid m masks = 1%float)
  /\ ((forall e, In e m -> subdetId (fst e) <> subdetId detid) ->
     getMatchingGeomFactor detid m masks = 1%float)
  /\ getMatchingGeomFactor detid m masks =
     getMatchingGeomFactor detid
       (List.filter (fun e => entry_matches detid (fst e) masks) m) masks
  /\ getMatchingPUFactors detid mpu masks =
     getMatchingPUFactors detid
       (List.filter (fun e => entry_matches detid (fst e) masks) mpu) masks.
Proof.
  assert (Hidem : forall (T : Type) (l : list (Z * T)),
            List.filter (fun e => entry_matches detid (fst e) masks)
              (List.filter (fun e => entry_matches detid (fst e) masks) l)
            = List.filter (fun e => entry_matches detid (fst e) masks) l).
  { intros T l. induction l as [| e l IH]; [reflexivity |].
    cbn [List.filter]. destruct (entry_matches detid (fst e) masks) eqn:He; [| exact IH].
    cbn [List.filter]. rewrite He, IH. reflexivity. }
  assert (Hnone : (forall e, In e m -> entry_matches detid (fst e) masks = false) ->
                  getMatchingGeomFactor detid m masks = 1%float).
  { intros Hall. unfold getMatchingGeomFactor.
    rewrite geom_fold_product, (filter_none _ m Hall). reflexivity. }
  split; [exact Hnone | split; [| split]].
  - intros Hsub. apply Hnone. intros e Hin. unfold entry_matches.
    destruct (Z.eqb_spec (subdetId (fst e)) (subdetId detid)) as [Heq | Hne];
      [exfalso; exact (Hsub e Hin Heq) | reflexivity].
  - unfold getMatchingGeomFactor. rewrite !geom_fold_product, Hidem. reflexivity.
  - unfold getMatchingPUFactors. rewrite !pu_fold_last, Hidem. reflexivity.
Qed.

Lemma last_In {A : Type} (l : list A) (d : A) :
  l <> [] -> In (List.last l d) l.
Proof.
  revert d. induction l as [| x l IH]; intros d Hne; [contradiction |].
  rewrite last_cons_default. destruct l as [| y l]; [left; reflexivity |].
  right. apply IH. discriminate.
Qed.

(** The vector factor is never assembled from several entries: it is
    empty, or it is the whole value of one entry of the map that matches
    the target. *)
Theorem resolveVector_from_one_entry (detid : Z) (m : PUFactorMap) (masks : list Z) :
  getMatchingPUFactors detid m masks = []
  \/ exists mapid, In (mapid, getMatchingPUFactors detid m masks) m
                   /\ entry_matches detid mapid masks = true.
Proof.
  unfold getMatchingPUFactors. rewrite pu_fold_last.
  destruct (List.filter (fun e => entry_matches detid (fst e) masks) m) as [| e l] eqn:Hf;
    [left; reflexivity |].
  right.
  assert (Hin : In (List.last (map snd (e :: l)) []) (map snd (e :: l)))
    by (apply last_In; discriminate).
  apply in_map_iff in Hin as ([mapid v] & Hv & Hin). cbn [snd] in Hv.
  rewrite <- Hf in Hin. apply List.filter_In in Hin as [Hin Hmatch].
  exists mapid. rewrite <- Hv. split; [exact Hin | exact Hmatch].
Qed.

End MatchingMore.

(** ** The depth of the PU factors and the page layout *)

Lemma maxDepth_fold (m : PUFactorMap) (size : Z) :
  short_vectors (2 ^ 32) m -> 0 <= size < 2 ^ 32 ->
  let r := fold_left maxDepth_step m size in
  size <= r < 2 ^ 32
  /\ (forall e, In e m -> Z.of_nat (length (snd e)) <= r)
  /\ (r = size \/ exists e, In e m /\ r = Z.of_nat (length (snd e))).
Proof.
  revert size. induction m as [| e m IH]; intros size Hshort Hsize; cbn [fold_left].
  - split; [lia | split; [intros e [] | left; reflexivity]].
  - assert (He : Z.of_nat (length (snd e)) < 2 ^ 32) by (apply Hshort; left; reflexivity).
    assert (Hshort' : short_vectors (2 ^ 32) m)
      by (intros x Hx; apply Hshort; right; exact Hx).
    assert (Hstep : maxDepth_step size e = Z.max size (Z.of_nat (length (snd e)))).
    { unfold maxDepth_step. destruct (Z.ltb_spec size (Z.of_nat (length (snd e)))).
      - rewrite Z.mod_small by lia. lia.
      - lia. }
    rewrite Hstep.
    destruct (IH (Z.max size (Z.of_nat (length (snd e)))) Hshort' ltac:(lia))
      as (Hr & Hall & Hatt).
    split; [lia | split].
    + intros x [<- | Hx]; [lia | apply Hall; exact Hx].
    + destruct Hatt as [Heq | (x & Hx & Heq)].
      * destruct (Z.max_spec size (Z.of_nat (length (snd e)))) as [[_ Hm] | [_ Hm]].
        -- right. exists e. split; [left; reflexivity | lia].
        -- left. lia.
      * right. exists x. split; [right; exact Hx | exact Heq].
Qed.

(** [maxDepthOfPUArray] is the largest size of a vector of the map (for
    vectors shorter than 2^32): no vector is longer, some vector has
    that size unless the depth is 0, and the depth is 0 exactly when
    every vector is empty, in particular for the empty map. *)
Theorem maxDepthOfPUArray_is_max (m : PUFactorMap) :
  short_vectors (2 ^ 32) m ->
  0 <= maxDepthOfPUArray m < 2 ^ 32
  /\ (forall e, In e m -> Z.of_nat (length (snd e)) <= maxDepthOfPUArray m)
  /\ (maxDepthOfPUArray m = 0 \/
      exists e, In e m /\ maxDepthOfPUArray m = Z.of_nat (length (snd e)))
  /\ (maxDepthOfPUArray m = 0 <-> forall e, In e m -> snd e = []).
Proof.
  intros Hshort.
  destruct (maxDepth_fold m 0 Hshort ltac:(lia)) as (Hr & Hall & Hatt).
  fold (maxDepthOfPUArray m) in *.
  split; [lia | split; [exact Hall | split; [exact Hatt |]]].
  split.
  - intros H0 e Hin. specialize (Hall e Hin). rewrite H0 in Hall.
    destruct (snd e); [reflexivity | cbn [length] in Hall; lia].
  - intros Hempty. destruct Hatt as [H0 | (e & Hin & Heq)]; [exact H0 |].
    rewrite Heq, (Hempty e Hin). reflexivity.
Qed.

Section PUFillingFacts.
Context {D : DetIdInterface}.

Lemma indexed_returns (det : Z) (values : list float) (index : Z) :
  0 <= index -> index + Z.of_nat (length values) <= INT_MAX ->
  exists calls,
    indexed index det values = Returns calls
    /\ forall call, In call calls ->
         index <= fst (fst call) < index + Z.of_nat (length values)
         /\ snd (fst call) = det
         /\ values !! Z.to_nat (fst (fst call) - index) = Some (snd call).
Proof.
  revert index. induction values as [| v values IH]; intros index H0 Hmax;
    cbn [indexed length] in *.
  - exists []. split; [reflexivity | intros call []].
  - assert (Hadd : int_add index 1 = Returns (index + 1)).
    { unfold int_add.
      destruct (Z.leb_spec INT_MIN (index + 1)); [| unfold INT_MIN in *; lia].
      destruct (Z.leb_spec (index + 1) INT_MAX); [reflexivity | lia]. }
    rewrite Hadd. cbn [bind].
    destruct (IH (index + 1) ltac:(lia) ltac:(lia)) as (calls & Hcalls & Hin).
    rewrite Hcalls. cbn [bind]. eexists. split; [reflexivity |].
    intros call [<- | Hc]; cbn [fst snd].
    + rewrite Z.sub_diag. split; [lia | split; reflexivity].
    + destruct (Hin call Hc) as (Hi & Hdet & Hv).
      split; [lia | split; [exact Hdet |]].
      replace (Z.to_nat (fst (fst call) - index))
        with (S (Z.to_nat (fst (fst call) - (index + 1)))) by lia.
      exact Hv.
Qed.

(** Filling the PU maps, for a map whose vectors are shorter than
    [INT_MAX]: the vector resolved for a module is never longer than
    [maxDepthOfPUArray], the counter [index] never overflows, and every
    call [maps[index].fillTrackerMap(det, value)] has [index] from 0 to
    below the depth, the number of maps, with [value] the element
    [index] of the vector resolved for [det]. *)
Theorem puFill_index_in_range (p1detIds : list Z) (theMap : PUFactorMap)
    (masks : list Z) :
  short_vectors INT_MAX theMap ->
  (forall det, Z.of_nat (length (getMatchingPUFactors det theMap masks))
               <= maxDepthOfPUArray theMap)
  /\ exists calls,
       puFillCalls p1detIds theMap masks = Returns calls
       /\ forall index det value,
            In (index, det, value) calls ->
            0 <= index < maxDepthOfPUArray theMap
            /\ In det p1detIds
            /\ getMatchingPUFactors det theMap masks !! Z.to_nat index = Some value.
Proof.
  intros Hshort.
  assert (Hshort32 : short_vectors (2 ^ 32) theMap).
  { intros e Hin. specialize (Hshort e Hin). unfold INT_MAX in Hshort. lia. }
  destruct (maxDepth_fold theMap 0 Hshort32 ltac:(lia)) as (Hr & Hall & _).
  fold (maxDepthOfPUArray theMap) in Hall, Hr.
  assert (Hvec : forall det,
            Z.of_nat (length (getMatchingPUFactors det theMap masks))
              <= maxDepthOfPUArray theMap
            /\ Z.of_nat (length (getMatchingPUFactors det theMap masks)) < INT_MAX).
  { intros det. unfold getMatchingPUFactors. rewrite pu_fold_last.
    destruct (List.filter (fun e => entry_matches det (fst e) masks) theMap)
      as [| e l] eqn:Hf.
    - cbn. unfold INT_MAX. lia.
    - assert (Hin : In (List.last (map snd (e :: l)) []) (map snd (e :: l)))
        by (apply last_In; discriminate).
      apply in_map_iff in Hin as (x & Hx & Hin).
      rewrite <- Hf in Hin. apply List.filter_In in Hin as [Hin _].
      rewrite <- Hx. split; [apply Hall | apply Hshort]; exact Hin. }
  split; [intros det; apply Hvec |].
  induction p1detIds as [| d dets IH]; cbn [puFillCalls].
  - exists []. split; [reflexivity | intros index det value []].
  - destruct (Hvec d) as [Hlen Hmax].
    assert (Hfit : 0 + Z.of_nat (length (getMatchingPUFactors d theMap masks)) <= INT_MAX)
      by lia.
    destruct (indexed_returns d (getMatchingPUFactors d theMap masks) 0
                (Z.le_refl 0) Hfit) as (calls & Hcalls & Hin).
    destruct IH as (calls' & Hcalls' & Hin').
    cbn zeta. rewrite Hcalls. cbn [bind]. rewrite Hcalls'. cbn [bind].
    eexists. split; [reflexivity |].
    intros index det value Hcall. apply in_app_or in Hcall as [Hc | Hc].
    + destruct (Hin _ Hc) as (Hi & Hdet & Hv). cbn [fst snd] in *. subst det.
      rewrite Z.sub_0_r in Hv.
      split; [lia | split; [left; reflexivity | exact Hv]].
    + destruct (Hin' index det value Hc) as (Hi & Hdet & Hv).
      split; [exact Hi | split; [right; exact Hdet | exact Hv]].
Qed.

End PUFillingFacts.

Lemma getClosestFactors_grid (n : Z) :
  1 <= n < INT_MAX ->
  exists rows cols,
    getClosestFactors n = Returns (rows, cols) /\ n <= rows * cols /\ 1 <= rows <= cols.
Proof.
  intros Hn. unfold getClosestFactors.
  assert (Hcover : n <= evenCover n <= INT_MAX /\ 1 <= evenCover n).
  { unfold evenCover. destruct (negb (Z.rem n 2 =? 0) && (1 <? n)); lia. }
  destruct Hcover as [Hcover Hpos].
  assert (Hadj : (if negb (Z.rem n 2 =? 0) && (1 <? n) then int_add n 1 else Returns n)
                 = Returns (evenCover n)).
  { unfold evenCover, int_add.
    destruct (negb (Z.rem n 2 =? 0) && (1 <? n)); [| reflexivity].
    destruct (Z.leb_spec INT_MIN (n + 1)); [| unfold INT_MIN in *; lia].
    destruct (Z.leb_spec (n + 1) INT_MAX); [reflexivity | lia]. }
  rewrite Hadj. cbn [bind]. set (cover := evenCover n) in *.
  unfold int_sqrt. destruct (Z.ltb_spec cover 0) as [Hneg | _]; [lia |]. cbn [bind].
  pose proof (Z.sqrt_spec cover ltac:(lia)) as Hsqrt. cbv zeta in Hsqrt.
  assert (Hs1 : 1 <= Z.sqrt cover).
  { destruct (Z.le_gt_cases 1 (Z.sqrt cover)) as [H | H]; [exact H |].
    pose proof (Z.sqrt_nonneg cover) as Hnn.
    assert (H0 : Z.sqrt cover = 0) by lia.
    rewrite H0 in Hsqrt. cbn in Hsqrt. lia. }
  destruct (closest_loop_largest cover (Z.to_nat (Z.sqrt cover)) ltac:(lia))
    as (t & Hret & Hrange & [q Hq] & _).
  rewrite Hret. cbn [bind]. rewrite Z2Nat.id in * by lia.
  assert (Hquot : Z.quot cover t = q) by (rewrite Hq; apply Z.quot_mul; lia).
  assert (Htq : t <= q).
  { assert (Hsq : t * t <= Z.sqrt cover * Z.sqrt cover) by nia.
    assert (Hle : t * t <= q * t) by lia.
    apply (Z.mul_le_mono_pos_r t q t); lia. }
  exists t, q. rewrite Hquot. split; [reflexivity | split; lia].
Qed.

(** The pages of the PU maps: when some vector of the map is not empty,
    [getClosestFactors] at the depth returns a grid [(rows, cols)] with
    at least one pad per depth slot, so every pad [i + 1] with
    [i < depth] exists; when every vector is empty (the empty map
    included), the depth is 0 and the layout divides by zero. *)
Theorem puPages_cover_depth (m : PUFactorMap) :
  short_vectors INT_MAX m ->
  ((exists e, In e m /\ snd e <> []) ->
     exists rows cols,
       getClosestFactors (maxDepthOfPUArray m) = Returns (rows, cols)
       /\ maxDepthOfPUArray m <= rows * cols /\ 1 <= rows <= cols)
  /\ ((forall e, In e m -> snd e = []) ->
      getClosestFactors (maxDepthOfPUArray m) = Undefined division_by_zero).
Proof.
  intros Hshort.
  assert (Hshort32 : short_vectors (2 ^ 32) m).
  { intros e Hin. specialize (Hshort e Hin). unfold INT_MAX in Hshort. lia. }
  destruct (maxDepth_fold m 0 Hshort32 ltac:(lia)) as (Hr & Hall & Hatt).
  fold (maxDepthOfPUArray m) in *.
  split.
  - intros (e & Hin & Hne). apply getClosestFactors_grid. split.
    + specialize (Hall e Hin). destruct (snd e); [contradiction | cbn [length] in Hall; lia].
    + destruct Hatt as [H0 | (x & Hx & Heq)]; [unfold INT_MAX; lia |].
      rewrite Heq. apply Hshort. exact Hx.
  - intros Hempty.
    assert (H0 : maxDepthOfPUArray m = 0).
    { destruct Hatt as [H0 | (x & Hx & Heq)]; [exact H0 |].
      rewrite Heq, (Hempty x Hx). reflexivity. }
    rewrite H0. reflexivity.
Qed.

(** ** More on the unpacking *)

(** The module identifier that [unpackRoc] returns has an empty region
    field: decoding it again gives the same module and the region 0. *)
Lemma unpackRoc_module_fixed (shift id : Z) :
  0 <= shift ->
  unpackRoc shift (fst (unpackRoc shift id)) = (fst (unpackRoc shift id), 0).
Proof.
  intros Hs. unfold unpackRoc. cbn [fst snd]. f_equal.
  - rewrite <- Z.land_assoc, Z.land_diag. reflexivity.
  - apply Z.bits_inj'. intros i Hi.
    rewrite Z.bits_0, Z.shiftr_spec, !Z.land_spec, testbit_lnot32 by lia.
    destruct (Z.testbit (Z.shiftl rocIdMaskBits shift) (i + shift)).
    + cbn [negb andb]. rewrite andb_false_r. reflexivity.
    + rewrite andb_false_r. reflexivity.
Qed.

(** Decoding loses nothing and is stable: two 32-bit keys with the same
    module and region under a shift are the same key, and the module
    identifier decodes to itself with the region 0. *)
Theorem unpackRoc_injective (shift id1 id2 : Z) :
  shift = BPixRocIdShift \/ shift = FPixRocIdShift ->
  is_uint32 id1 -> is_uint32 id2 ->
  (unpackRoc shift id1 = unpackRoc shift id2 -> id1 = id2)
  /\ unpackRoc shift (fst (unpackRoc shift id1)) = (fst (unpackRoc shift id1), 0).
Proof.
  intros Hshift H1 H2.
  assert (Hs : 0 <= shift /\ shift + 5 <= 32)
    by (unfold BPixRocIdShift, FPixRocIdShift in Hshift; lia).
  destruct Hs as [Hs Hfit]. split.
  - intros Heq.
    rewrite <- (packRoc_unpackRoc shift id1 Hs Hfit H1),
            <- (packRoc_unpackRoc shift id2 Hs Hfit H2), Heq.
    reflexivity.
  - apply unpackRoc_module_fixed. exact Hs.
Qed.

Section UnpackingMore.
Context {D : DetIdInterface}.

Lemma combine_map_same {A B C : Type} (f : A -> B) (g : A -> C) (l : list A) :
  combine (map f l) (map g l) = map (fun x => (f x, g x)) l.
Proof. induction l as [| x l IH]; [reflexivity | cbn; rewrite IH; reflexivity]. Qed.

(** The two vectors of a record stay aligned: position by position they
    hold, for the entries of the module with a raw region other than 0
    and in the order of the payload, the raw region minus one and the
    [float] of one minus the factor. *)
Theorem pbrf_vectors_aligned (m : FactorMap) (rawid : Z) (p : packedBadRocFraction) :
  pbrf m !! rawid = Some p ->
  combine (badRocNumber p) (badRocFrac p) =
    map (fun e => (rocOf e - 1, double_to_float (1 - snd e)%float)) (regionsOf rawid m)
  /\ length (badRocNumber p) = length (regionsOf rawid m).
Proof.
  intros Hp. rewrite pbrf_lookup in Hp.
  destruct (existsb (fun e => moduleOf e =? rawid) m); [| discriminate Hp].
  injection Hp as <-. unfold fractionOf. cbn [badRocNumber badRocFrac].
  split; [apply combine_map_same | apply length_map].
Qed.

(** [pbrf] never looks at the factor of an entry whose raw region is 0:
    changing it changes nothing in the result. *)
Theorem pbrf_ignores_module_factor (m1 m2 : FactorMap) (key : Z) (v v' : float) :
  snd (decodeKey key) = 0 ->
  pbrf (m1 ++ (key, v) :: m2) = pbrf (m1 ++ (key, v') :: m2).
Proof.
  intros Hroc. apply map_eq. intros k. rewrite !pbrf_lookup.
  assert (Hex : existsb (fun e => moduleOf e =? k) (m1 ++ (key, v) :: m2)
                = existsb (fun e => moduleOf e =? k) (m1 ++ (key, v') :: m2)).
  { rewrite !existsb_app. cbn [existsb]. reflexivity. }
  assert (Hreg : regionsOf k (m1 ++ (key, v) :: m2) = regionsOf k (m1 ++ (key, v') :: m2)).
  { assert (Hr : forall w, rocOf (key, w) = 0) by (intros w; exact Hroc).
    unfold regionsOf. rewrite !List.filter_app. cbn [List.filter].
    rewrite (Hr v), (Hr v'). cbn [Z.eqb negb].
    rewrite !andb_false_r. reflexivity. }
  rewrite Hex. unfold fractionOf. rewrite Hreg. reflexivity.
Qed.

End UnpackingMore.

(** ** Marking the ROCs *)

Lemma markRocs_result (value : float -> float) (sel : bool) (rawid : Z)
    (badRocsF : list float) (rest : list Z) (i : nat) :
  (i + length rest <= length badRocsF)%nat ->
  (Forall (fun roc => inBitset16 roc = true) rest ->
     markRocs value sel rawid badRocsF i rest =
       Marked (if sel then rocCalls value rawid rest (drop i badRocsF) else []))
  /\ (Exists (fun roc => inBitset16 roc = false) rest ->
      exists calls, markRocs value sel rawid badRocsF i rest = OutOfRange calls).
Proof.
  revert i. induction rest as [| roc rest IH]; intros i Hlen; cbn [markRocs length] in *.
  - split; [intros _; destruct sel; reflexivity | intros H; inversion H].
  - fold (inBitset16 roc).
    destruct (lookup_lt_is_Some_2 badRocsF i ltac:(lia)) as [frac Hfrac].
    destruct (IH (S i) ltac:(lia)) as [IHok IHbad].
    destruct (inBitset16 roc) eqn:Hroc.
    + split.
      * intros Hall. inversion Hall as [| ? ? _ Hrest]; subst.
        rewrite (IHok Hrest). destruct sel; [| reflexivity].
        rewrite Hfrac. cbn [after app]. unfold rocCalls.
        rewrite (drop_S _ _ _ Hfrac). reflexivity.
      * intros Hex. inversion Hex as [? ? Hhead | ? ? Htail]; subst; [congruence |].
        destruct (IHbad Htail) as [calls Hcalls]. rewrite Hcalls.
        destruct sel; [| eauto]. rewrite Hfrac. cbn [after]. eauto.
    + split.
      * intros Hall. inversion Hall; subst. congruence.
      * intros _. eauto.
Qed.

Lemma all_or_some {A : Type} (f : A -> bool) (l : list A) :
  Forall (fun x => f x = true) l \/ Exists (fun x => f x = false) l.
Proof.
  induction l as [| x l [IH | IH]].
  - left. constructor.
  - destruct (f x) eqn:Hx; [left; constructor; assumption | right; left; exact Hx].
  - right. right. exact IH.
Qed.

Lemma fillTheMap_result {D : DetIdInterface} (value : float -> float) (myType : DetType)
    (fr : list (Z * packedBadRocFraction)) :
  (forall el, In el fr -> length (badRocNumber (snd el)) = length (badRocFrac (snd el))) ->
  ((forall el, In el fr -> Forall (fun roc => inBitset16 roc = true) (badRocNumber (snd el))) ->
     fillTheMap value myType fr =
       Marked (flat_map (fun el =>
                 if selects myType (subdetId (fst el))
                 then rocCalls value (fst el) (badRocNumber (snd el)) (badRocFrac (snd el))
                 else []) fr))
  /\ ((exists el, In el fr /\ Exists (fun roc => inBitset16 roc = false) (badRocNumber (snd el))) ->
      exists calls, fillTheMap value myType fr = OutOfRange calls).
Proof.
  induction fr as [| el fr IH]; intros Hlen; cbn [fillTheMap flat_map].
  - split; [reflexivity | intros (el & [] & _)].
  - assert (Hel : (0 + length (badRocNumber (snd el)) <= length (badRocFrac (snd el)))%nat)
      by (rewrite (Hlen el) by (left; reflexivity); lia).
    destruct (markRocs_result value (selects myType (subdetId (fst el))) (fst el)
                (badRocFrac (snd el)) (badRocNumber (snd el)) 0 Hel) as [Hok Hbad].
    destruct (IH (fun x Hx => Hlen x (or_intror Hx))) as [IHok IHbad].
    unfold markElement. cbn zeta. split.
    + intros Hall. rewrite (Hok (Hall el (or_introl eq_refl))).
      rewrite (IHok (fun x Hx => Hall x (or_intror Hx))). cbn [after].
      rewrite drop_0. reflexivity.
    + intros (x & Hx & Hex).
      destruct (all_or_some inBitset16 (badRocNumber (snd el))) as [Hall | Hsome].
      * rewrite (Hok Hall). destruct Hx as [<- | Hx].
        -- exfalso. apply List.Exists_exists in Hex as (roc & Hin & Hroc).
           rewrite List.Forall_forall in Hall. rewrite (Hall roc Hin) in Hroc.
           discriminate Hroc.
        -- destruct (IHbad (ex_intro _ x (conj Hx Hex))) as [calls Hcalls].
           rewrite Hcalls. cbn [after]. eauto.
      * destruct (Hbad Hsome) as [calls Hcalls]. rewrite Hcalls. eauto.
Qed.

Section MarkingFacts.
Context {D : DetIdInterface}.

(** Marking a record whose two vectors have the same length: when every
    region index is a position of the 16-bit set, the loop ends
    normally, with one call per region when the detector part of the
    module is drawn (the bit of the region alone set, the value that of
    the same position) and none otherwise; when some index is not, the
    loop ends in [std::out_of_range], also for a module that is not
    drawn. *)
Theorem markElement_bounds (value : float -> float) (myType : DetType)
    (rawid : Z) (p : packedBadRocFraction) :
  length (badRocNumber p) = length (badRocFrac p) ->
  (Forall (fun roc => inBitset16 roc = true) (badRocNumber p) ->
     markElement value myType (rawid, p) =
       Marked (if selects myType (subdetId rawid)
               then rocCalls value rawid (badRocNumber p) (badRocFrac p)
               else [])
     /\ length (rocCalls value rawid (badRocNumber p) (badRocFrac p))
        = length (badRocNumber p)
     /\ Forall (fun c => exists roc, In roc (badRocNumber p)
                                     /\ call_rocs c = 2 ^ roc /\ call_rocs c < 2 ^ 16)
               (rocCalls value rawid (badRocNumber p) (badRocFrac p)))
  /\ (Exists (fun roc => inBitset16 roc = false) (badRocNumber p) ->
      exists calls, markElement value myType (rawid, p) = OutOfRange calls).
Proof.
  intros Hlen.
  destruct (markRocs_result value (selects myType (subdetId rawid)) rawid
              (badRocFrac p) (badRocNumber p) 0 ltac:(lia)) as [Hok Hbad].
  unfold markElement. cbn [fst snd]. split; [| exact Hbad].
  intros Hall. rewrite (Hok Hall), drop_0.
  split; [reflexivity | split].
  - unfold rocCalls. rewrite length_map, length_combine. lia.
  - apply List.Forall_forall. intros c Hc. unfold rocCalls in Hc.
    apply in_map_iff in Hc as ([roc frac] & <- & Hin). cbn [call_rocs fst].
    apply in_combine_l in Hin. exists roc.
    rewrite List.Forall_forall in Hall. specialize (Hall roc Hin).
    unfold inBitset16 in Hall. apply andb_true_iff in Hall as [H0 H16].
    apply Z.leb_le in H0. apply Z.ltb_lt in H16.
    rewrite Z.shiftl_1_l. split; [exact Hin | split; [reflexivity |]].
    apply Z.pow_lt_mono_r; lia.
Qed.

(** Marking the unpacked payload, in whatever order the map is iterated:
    when every key of the payload has a raw region of at most 16 the
    marking ends normally; when some key has a raw region above 16 it
    ends in [std::out_of_range], whatever detector part is drawn.  It
    never reads the fractions past their end. *)
Theorem fillTheMap_of_pbrf (value : float -> float) (myType : DetType)
    (m : FactorMap) (elems : list (Z * packedBadRocFraction)) :
  enumerates elems (pbrf m) ->
  ((forall e, In e m -> rocOf e <= 16) ->
     exists calls, fillTheMap value myType elems = Marked calls)
  /\ ((exists e, In e m /\ 16 < rocOf e) ->
      exists calls, fillTheMap value myType elems = OutOfRange calls)
  /\ (forall calls, fillTheMap value myType elems <> PastTheEnd calls).
Proof.
  intros Hperm.
  assert (Hrec : forall el, In el elems -> snd el = fractionOf (fst el) m
                                          /\ existsb (fun e => moduleOf e =? fst el) m = true).
  { intros [k p] Hin. cbn [fst snd].
    apply (Permutation_in _ Hperm) in Hin. apply list_elem_of_In in Hin.
    apply elem_of_map_to_list in Hin. rewrite pbrf_lookup in Hin.
    destruct (existsb (fun e => moduleOf e =? k) m); [| discriminate Hin].
    injection Hin as <-. auto. }
  assert (Hlen : forall el, In el elems ->
                   length (badRocNumber (snd el)) = length (badRocFrac (snd el))).
  { intros el Hin. rewrite (proj1 (Hrec el Hin)). unfold fractionOf.
    cbn [badRocNumber badRocFrac]. rewrite !length_map. reflexivity. }
  destruct (fillTheMap_result value myType elems Hlen) as [Hok Hbad].
  assert (Hsmall : (forall e, In e m -> rocOf e <= 16) ->
                   exists calls, fillTheMap value myType elems = Marked calls).
  { intros Hall. eexists. apply Hok. intros el Hin.
    rewrite (proj1 (Hrec el Hin)). unfold fractionOf. cbn [badRocNumber].
    apply List.Forall_forall. intros roc Hroc.
    apply in_map_iff in Hroc as (e & <- & He).
    apply regionsOf_spec in He as (Hem & _ & Hnz).
    pose proof (rocOf_range e). specialize (Hall e Hem). unfold inBitset16.
    apply andb_true_iff. split; [apply Z.leb_le | apply Z.ltb_lt]; lia. }
  assert (Hlarge : (exists e, In e m /\ 16 < rocOf e) ->
                   exists calls, fillTheMap value myType elems = OutOfRange calls).
  { intros (e & Hem & Hbig). apply Hbad.
    assert (Hkey : is_Some (pbrf m !! moduleOf e)).
    { rewrite pbrf_lookup.
      assert (Hex : existsb (fun e0 => moduleOf e0 =? moduleOf e) m = true)
        by (apply existsb_exists; exists e; split; [exact Hem | apply Z.eqb_refl]).
      rewrite Hex. eexists. reflexivity. }
    destruct Hkey as [p Hp].
    exists (moduleOf e, p). split.
    - apply (Permutation_in _ (Permutation_sym Hperm)). apply list_elem_of_In.
      apply elem_of_map_to_list. exact Hp.
    - cbn [snd]. rewrite pbrf_lookup in Hp.
      destruct (existsb (fun e0 => moduleOf e0 =? moduleOf e) m); [| discriminate Hp].
      injection Hp as <-. unfold fractionOf. cbn [badRocNumber].
      apply List.Exists_exists. exists (rocOf e - 1). split.
      + apply in_map_iff. exists e. split; [reflexivity |].
        apply regionsOf_spec. split; [exact Hem | split; [reflexivity | lia]].
      + unfold inBitset16. apply andb_false_iff. right. apply Z.ltb_ge. lia. }
  split; [exact Hsmall | split; [exact Hlarge |]].
  intros calls Hpast.
  destruct (all_or_some (fun e => rocOf e <=? 16) m) as [Hall | Hsome].
  - rewrite List.Forall_forall in Hall.
    destruct (Hsmall (fun e He => proj1 (Z.leb_le _ _) (Hall e He))) as [cs Hcs].
    congruence.
  - apply List.Exists_exists in Hsome as (e & Hem & Hbig). apply Z.leb_gt in Hbig.
    destruct (Hlarge (ex_intro _ e (conj Hem Hbig))) as [cs Hcs]. congruence.
Qed.

End MarkingFacts.

(** ** Filling the full pixel map *)

Section MapFillingFacts.
Context {D : DetIdInterface}.
Variable topo : string -> TrackerTopology.

(** [fill] of the full pixel map: it throws for the factors [pu] and
    [INVALID]; for a geometric factor it returns false without filling
    anything unless the masks of the payload are the eight masks of the
    Phase-1 geometry, and then it fills each listed module once, in the
    order of the list, with the factor resolved for it, which is 1.0 for
    a module whose subdetector has no entry in the selected map; a null
    payload fills nothing. *)
Theorem fullPixelMap_fill_cases (theFactor : factor) (p1detIds : list Z)
    (payload : Payload) :
  ((theFactor = pu \/ theFactor = INVALID) ->
     fullPixelMap_fill topo theFactor p1detIds (Some payload) = Throws "cms::Exception")
  /\ (forall theMap, selectFactors theFactor payload = Returns theMap ->
        (getDetIdmasks payload <> masks_geom topo one ->
           fullPixelMap_fill topo theFactor p1detIds (Some payload) = Returns (false, []))
        /\ (getDetIdmasks payload = masks_geom topo one ->
            exists calls,
              fullPixelMap_fill topo theFactor p1detIds (Some payload) = Returns (true, calls)
              /\ map fst calls = p1detIds
              /\ forall det value, In (det, value) calls ->
                   value = getMatchingGeomFactor det theMap (getDetIdmasks payload)
                   /\ ((forall e, In e theMap -> subdetId (fst e) <> subdetId det) ->
                       value = 1%float)))
  /\ fullPixelMap_fill topo theFactor p1detIds None = Returns (true, []).
Proof.
  split; [| split; [| reflexivity]].
  - intros [-> | ->]; reflexivity.
  - intros theMap Hsel. unfold fullPixelMap_fill. rewrite Hsel. cbn [bind]. split.
    + intros Hne.
      assert (Hchk : checkPhase topo one (getDetIdmasks payload) = false)
        by (apply not_true_is_false; rewrite checkPhase_eq; exact Hne).
      rewrite Hchk. reflexivity.
    + intros Heq.
      assert (Hchk : checkPhase topo one (getDetIdmasks payload) = true)
        by (apply checkPhase_eq; exact Heq).
      rewrite Hchk. cbn [negb]. eexists. split; [reflexivity | split].
      * rewrite map_map. cbn [fst]. apply map_id.
      * intros det value Hin. apply in_map_iff in Hin as (d & Hd & _).
        injection Hd as -> <-. split; [reflexivity |].
        intros Hsub. unfold getMatchingGeomFactor. rewrite geom_fold_product.
        rewrite filter_none; [reflexivity |].
        intros e He. unfold entry_matches.
        destruct (Z.eqb_spec (subdetId (fst e)) (subdetId det)) as [Hs | Hs];
          [exfalso; exact (Hsub e He Hs) | reflexivity].
Qed.

End MapFillingFacts.

(** ** The further properties at concrete payloads *)

(** The unpacked sample is a legacy payload for a reference list that
    holds its module. *)
Lemma isPhase0_some_key_witness :
  enumerates (map_to_list (pbrf samplePayload)) (pbrf samplePayload)
  /\ (isPhase0 [CMSSW.moduleA] (map_to_list (pbrf samplePayload)) = true <->
      exists det, is_Some (pbrf samplePayload !! det) /\ In det [CMSSW.moduleA]).
Proof.
  assert (H : enumerates (map_to_list (pbrf samplePayload)) (pbrf samplePayload))
    by apply Permutation_refl.
  split; [exact H |].
  exact (proj1 (isPhase0_some_key [CMSSW.moduleA] _ _ H)).
Defined.

Lemma isPhase0_of_pbrf_witness :
  enumerates (map_to_list (pbrf samplePayload)) (pbrf samplePayload)
  /\ (isPhase0 [CMSSW.moduleA] (map_to_list (pbrf samplePayload)) = true <->
      exists e, In e samplePayload /\ In (moduleOf e) [CMSSW.moduleA]).
Proof.
  assert (H : enumerates (map_to_list (pbrf samplePayload)) (pbrf samplePayload))
    by apply Permutation_refl.
  split; [exact H |].
  exact (isPhase0_of_pbrf [CMSSW.moduleA] samplePayload _ H).
Defined.

(** Swapping two of the Phase-1 masks changes no match. *)
Lemma entry_matches_masks_witness :
  Permutation ([317718528; 303034368] ++ [301993980]) [301993980; 303034368; 317718528]
  /\ entry_matches CMSSW.moduleA CMSSW.layer1Id [301993980; 303034368; 317718528]
     = entry_matches CMSSW.moduleA CMSSW.layer1Id ([317718528; 303034368] ++ [301993980]).
Proof.
  assert (H : Permutation ([317718528; 303034368] ++ [301993980])
                          [301993980; 303034368; 317718528]).
  { cbn [app]. apply Permutation_sym.
    apply (Permutation_trans (l' := [303034368; 301993980; 317718528]));
      [apply perm_swap |].
    apply (Permutation_trans (l' := [303034368; 317718528; 301993980]));
      [apply perm_skip; apply perm_swap | apply perm_swap]. }
  split; [exact H |].
  exact (proj2 (entry_matches_masks CMSSW.moduleA CMSSW.layer1Id
                  [317718528; 303034368] [301993980] _) H).
Defined.

(** The entry stored for the whole barrel is a wildcard under the
    Phase-1 masks. *)
Lemma entry_matches_wildcard_witness :
  subdetId CMSSW.moduleA = subdetId CMSSW.barrelId
  /\ (forall m, In m CMSSW.masks1 -> subdetId m = subdetId CMSSW.barrelId ->
        Z.land CMSSW.barrelId m = DetId2 (det CMSSW.barrelId) (subdetId CMSSW.barrelId))
  /\ entry_matches CMSSW.moduleA CMSSW.barrelId CMSSW.masks1 = true.
Proof.
  assert (Hsub : subdetId CMSSW.moduleA = subdetId CMSSW.barrelId) by reflexivity.
  assert (Hwild : forall m, In m CMSSW.masks1 -> subdetId m = subdetId CMSSW.barrelId ->
            Z.land CMSSW.barrelId m = DetId2 (det CMSSW.barrelId) (subdetId CMSSW.barrelId)).
  { intros m Hin Hm. unfold CMSSW.masks1 in Hin. cbn [In] in Hin.
    repeat (destruct Hin as [<- | Hin];
            [first [reflexivity | vm_compute in Hm; discriminate Hm] |]).
    destruct Hin. }
  split; [exact Hsub | split; [exact Hwild |]].
  exact (entry_matches_wildcard CMSSW.moduleA CMSSW.barrelId CMSSW.masks1 Hsub Hwild).
Defined.

(** An entry of layer 2 is disqualified for a module of layer 1 by the
    first mask, the layer mask. *)
Lemma mask_loop_first_disqualifier_witness :
  (mask_loop CMSSW.moduleA 304087040 CMSSW.masks1 0 < length CMSSW.masks1)%nat
  /\ exists maskid,
       CMSSW.masks1 !! mask_loop CMSSW.moduleA 304087040 CMSSW.masks1 0 = Some maskid
       /\ disqualifies CMSSW.moduleA 304087040 maskid = true.
Proof.
  assert (H : (mask_loop CMSSW.moduleA 304087040 CMSSW.masks1 0 < length CMSSW.masks1)%nat)
    by (vm_compute; lia).
  split; [exact H |].
  destruct (proj2 (mask_loop_first_disqualifier CMSSW.moduleA 304087040 CMSSW.masks1) H)
    as (maskid & Hlook & _ & Hdis & _).
  exists maskid. split; [exact Hlook | exact Hdis].
Defined.

(** Barrel entries leave the factor of a forward module at 1.0. *)
Lemma resolve_ignores_unmatched_witness :
  (forall e, In e [(CMSSW.barrelId, d0_9); (CMSSW.layer1Id, d0_8)] ->
     subdetId (fst e) <> subdetId CMSSW.endcapModule)
  /\ getMatchingGeomFactor CMSSW.endcapModule
       [(CMSSW.barrelId, d0_9); (CMSSW.layer1Id, d0_8)] CMSSW.masks1 = 1%float.
Proof.
  assert (Hsub : forall e, In e [(CMSSW.barrelId, d0_9); (CMSSW.layer1Id, d0_8)] ->
                   subdetId (fst e) <> subdetId CMSSW.endcapModule).
  { intros e [<- | [<- | []]] H; vm_compute in H; discriminate H. }
  split; [exact Hsub |].
  exact (proj1 (proj2 (resolve_ignores_unmatched CMSSW.endcapModule CMSSW.masks1
                         [(CMSSW.barrelId, d0_9); (CMSSW.layer1Id, d0_8)] [])) Hsub).
Defined.

Lemma short_samplePU (bound : Z) : 2 < bound -> short_vectors bound samplePU.
Proof. intros Hb e [<- | [<- | []]]; cbn [snd length]; lia. Qed.

Lemma maxDepthOfPUArray_is_max_witness :
  short_vectors (2 ^ 32) samplePU
  /\ (forall e, In e samplePU -> Z.of_nat (length (snd e)) <= maxDepthOfPUArray samplePU).
Proof.
  assert (H : short_vectors (2 ^ 32) samplePU) by (apply short_samplePU; lia).
  split; [exact H |].
  exact (proj1 (proj2 (maxDepthOfPUArray_is_max samplePU H))).
Defined.

Lemma puFill_index_in_range_witness :
  short_vectors INT_MAX samplePU
  /\ exists calls,
       puFillCalls [CMSSW.moduleA] samplePU CMSSW.masks1 = Returns calls
       /\ forall index det value,
            In (index, det, value) calls ->
            0 <= index < maxDepthOfPUArray samplePU
            /\ In det [CMSSW.moduleA]
            /\ getMatchingPUFactors det samplePU CMSSW.masks1 !! Z.to_nat index = Some value.
Proof.
  assert (H : short_vectors INT_MAX samplePU)
    by (apply short_samplePU; unfold INT_MAX; lia).
  split; [exact H |].
  exact (proj2 (puFill_index_in_range [CMSSW.moduleA] samplePU CMSSW.masks1 H)).
Defined.

Lemma puPages_cover_depth_witness :
  short_vectors INT_MAX samplePU
  /\ (exists e, In e samplePU /\ snd e <> [])
  /\ exists rows cols,
       getClosestFactors (maxDepthOfPUArray samplePU) = Returns (rows, cols)
       /\ maxDepthOfPUArray samplePU <= rows * cols /\ 1 <= rows <= cols.
Proof.
  assert (H : short_vectors INT_MAX samplePU)
    by (apply short_samplePU; unfold INT_MAX; lia).
  assert (Hne : exists e, In e samplePU /\ snd e <> [])
    by (exists (CMSSW.layer1Id, [d0_5]); split; [right; left; reflexivity | discriminate]).
  split; [exact H | split; [exact Hne |]].
  exact (proj1 (puPages_cover_depth samplePU H) Hne).
Defined.

Lemma unpackRoc_injective_witness :
  (BPixRocIdShift = BPixRocIdShift \/ BPixRocIdShift = FPixRocIdShift)
  /\ is_uint32 CMSSW.moduleA /\ is_uint32 CMSSW.moduleA_roc3
  /\ (unpackRoc BPixRocIdShift CMSSW.moduleA = unpackRoc BPixRocIdShift CMSSW.moduleA_roc3 ->
      CMSSW.moduleA = CMSSW.moduleA_roc3).
Proof.
  assert (Hs : BPixRocIdShift = BPixRocIdShift \/ BPixRocIdShift = FPixRocIdShift)
    by (left; reflexivity).
  assert (H1 : is_uint32 CMSSW.moduleA) by (unfold is_uint32, CMSSW.moduleA; lia).
  assert (H2 : is_uint32 CMSSW.moduleA_roc3) by (unfold is_uint32, CMSSW.moduleA_roc3; lia).
  split; [exact Hs | split; [exact H1 | split; [exact H2 |]]].
  exact (proj1 (unpackRoc_injective BPixRocIdShift CMSSW.moduleA CMSSW.moduleA_roc3 Hs H1 H2)).
Defined.

Lemma pbrf_vectors_aligned_witness :
  pbrf samplePayload !! CMSSW.moduleA
  = Some {| badRocNumber := [2; 19]; badRocFrac := [d0_5; d0_5] |}
  /\ combine [2; 19] [d0_5; d0_5]
     = map (fun e => (rocOf e - 1, double_to_float (1 - snd e)%float))
           (regionsOf CMSSW.moduleA samplePayload).
Proof.
  assert (Hp : pbrf samplePayload !! CMSSW.moduleA
               = Some {| badRocNumber := [2; 19]; badRocFrac := [d0_5; d0_5] |})
    by (vm_compute; reflexivity).
  split; [exact Hp |].
  exact (proj1 (pbrf_vectors_aligned samplePayload CMSSW.moduleA _ Hp)).
Defined.

Lemma pbrf_ignores_module_factor_witness :
  snd (decodeKey CMSSW.moduleA) = 0
  /\ pbrf ([] ++ (CMSSW.moduleA, d0_9) :: [(CMSSW.moduleA_roc3, d0_5)])
     = pbrf ([] ++ (CMSSW.moduleA, d0_8) :: [(CMSSW.moduleA_roc3, d0_5)]).
Proof.
  assert (H : snd (decodeKey CMSSW.moduleA) = 0) by reflexivity.
  split; [exact H |].
  exact (pbrf_ignores_module_factor [] [(CMSSW.moduleA_roc3, d0_5)]
           CMSSW.moduleA d0_9 d0_8 H).
Defined.

(** The record of the sample module, with the region index 19, cannot be
    marked, whatever detector part is drawn. *)
Lemma markElement_bounds_witness :
  length [2; 19] = length [d0_5; d0_5]
  /\ Exists (fun roc => inBitset16 roc = false) [2; 19]
  /\ exists calls,
       markElement percent t_forward
         (CMSSW.moduleA, {| badRocNumber := [2; 19]; badRocFrac := [d0_5; d0_5] |})
       = OutOfRange calls.
Proof.
  assert (Hlen : length [2; 19] = length [d0_5; d0_5]) by reflexivity.
  assert (Hex : Exists (fun roc => inBitset16 roc = false) [2; 19])
    by (right; left; reflexivity).
  split; [exact Hlen | split; [exact Hex |]].
  exact (proj2 (markElement_bounds percent t_forward CMSSW.moduleA
                  {| badRocNumber := [2; 19]; badRocFrac := [d0_5; d0_5] |} Hlen) Hex).
Defined.

Lemma fillTheMap_of_pbrf_witness :
  enumerates (map_to_list (pbrf samplePayload)) (pbrf samplePayload)
  /\ (exists e, In e samplePayload /\ 16 < rocOf e)
  /\ exists calls,
       fillTheMap percent t_all (map_to_list (pbrf samplePayload)) = OutOfRange calls.
Proof.
  assert (H : enumerates (map_to_list (pbrf samplePayload)) (pbrf samplePayload))
    by apply Permutation_refl.
  assert (Hbig : exists e, In e samplePayload /\ 16 < rocOf e).
  { exists (303043844, d0_5). split; [right; right; left; reflexivity |].
    vm_compute. reflexivity. }
  split; [exact H | split; [exact Hbig |]].
  exact (proj1 (proj2 (fillTheMap_of_pbrf percent t_all samplePayload _ H)) Hbig).
Defined.

(** With three masks only, the full pixel map is not drawn. *)
Lemma fullPixelMap_fill_cases_witness :
  selectFactors geom sampleConditions = Returns [(CMSSW.barrelId, d0_9)]
  /\ getDetIdmasks sampleConditions <> masks_geom CMSSW.sampleTopology one
  /\ fullPixelMap_fill CMSSW.sampleTopology geom [CMSSW.moduleA] (Some sampleConditions)
     = Returns (false, []).
Proof.
  assert (Hsel : selectFactors geom sampleConditions = Returns [(CMSSW.barrelId, d0_9)])
    by reflexivity.
  assert (Hne : getDetIdmasks sampleConditions <> masks_geom CMSSW.sampleTopology one)
    by (intros H; vm_compute in H; discriminate H).
  split; [exact Hsel | split; [exact Hne |]].
  exact (proj1 (proj1 (proj2 (fullPixelMap_fill_cases CMSSW.sampleTopology geom
                                [CMSSW.moduleA] sampleConditions)) _ Hsel) Hne).
Defined.
